(** * Module composition in [modules.test.ts]: [buildApi]

    The file under study, [packages/server/src/@trpc/modules.test.ts],
    has two layers:

    - a type-level computation ([Spread], [MiddlewareModules], [Builder])
      that decides which methods a builder offers, and
    - the function [buildApi], which at run time calls every module's
      [init], merges the returned [builderProps] objects with
      [Object.assign] and returns an object holding one function,
      [createBuilder], whose body throws.

    Both layers are embedded here: the types as finite maps from property
    names to types, the run-time code in a state-and-exception monad over
    a heap of mutable objects. *)

From Stdlib Require Import ZArith String.
From stdpp Require Import base option list gmap sets strings sorting.

Local Open Scope string_scope.
Local Open Scope list_scope.
Local Open Scope stdpp_scope.

(** ** Property keys and values *)

(** [Symbol('core')]: a token distinct from every other symbol.  The
    serial number stands for the identity that the JavaScript runtime
    gives each call of [Symbol]. *)
Record symbol := Symbol { description : string; serial : positive }.

#[global] Instance symbol_eq_dec : EqDecision symbol.
Proof. solve_decision. Defined.

#[global] Instance symbol_countable : Countable symbol.
Proof.
  apply (inj_countable' (λ y, (description y, serial y))
                        (λ p, Symbol p.1 p.2)).
  by intros [].
Defined.

(** [const core = Symbol('core')] and [const extension = Symbol('extension')] *)
Definition core : symbol := Symbol "core" 1.
Definition extension : symbol := Symbol "extension" 2.

(** An object is keyed by strings and symbols. *)
Inductive PropertyKey :=
  | PString (s : string)
  | PSymbol (y : symbol).

#[global] Instance PropertyKey_eq_dec : EqDecision PropertyKey.
Proof. solve_decision. Defined.

#[global] Instance PropertyKey_countable : Countable PropertyKey.
Proof.
  apply (inj_countable'
           (λ k, match k with PString s => inl s | PSymbol y => inr y end)
           (λ x, match x with inl s => PString s | inr y => PSymbol y end)).
  by intros [].
Defined.

(** Objects live in the heap and are known by their location. *)
Definition loc := positive.

(** Function values.  The only function literal of [buildApi] is the
    arrow function stored under [createBuilder]; functions that modules
    put into their [builderProps] are opaque here and known by a number;
    the functions of the engine are known by their name. *)
Inductive function :=
  | Fn_createBuilder
  | Fn_foreign (id : positive)
  | Fn_builtin (name : string).

(** [VIntrinsic] is a built-in object of the engine that is no function,
    such as [Object.prototype]; it is not in the heap. *)
Inductive value :=
  | VUndefined
  | VBoolean (b : bool)
  | VNumber (n : Z)
  | VString (s : string)
  | VSymbol (y : symbol)
  | VObject (l : loc)
  | VFunction (f : function)
  | VIntrinsic (name : string).

#[global] Instance function_eq_dec : EqDecision function.
Proof. solve_decision. Defined.

#[global] Instance value_eq_dec : EqDecision value.
Proof. solve_decision. Defined.

(** An object as an object literal makes it: its own properties, which
    are enumerable and writable data properties.  Its prototype is
    [Object.prototype]. *)
Abbreviation object := (gmap PropertyKey value).

(** ** The static layer: types as finite maps *)

Module Static.

(** The types that occur as field types of option records. *)
Inductive Ty :=
  | TAny                                  (* any *)
  | Tobject                               (* object *)
  | TTrue                                 (* true *)
  | TLiteral (s : string)                 (* 'bar' *)
  | TNames (names : gset symbol)          (* typeof core | typeof extension *)
  | TShape (fields : list (string * string)). (* { foo: 'bar' } *)

(** An object type, seen as the map from its keys to their types. *)
Abbreviation ObjectType := (gmap string Ty).

(** [[
    type Spread<TType, TWith> = {
      [K in keyof TType | keyof TWith]: K extends keyof TWith
        ? TWith[K]
        : K extends keyof TType ? TType[K] : never;
    };
    ]] *)
Definition Spread (TType TWith : ObjectType) : ObjectType :=
  merge (λ t w, match w with
                | Some x => Some x          (* K extends keyof TWith *)
                | None => t                 (* K extends keyof TType *)
                end) TType TWith.

(** [ModuleName = keyof MiddlewareModules<any>], after the three
    declarations of the interface have been merged. *)
Definition ModuleName : gset symbol := {[ core; extension ]}.

(** [interface MiddlewareOptions] *)
Definition MiddlewareOptions : ObjectType :=
  {[ "$module" := TNames ModuleName; "ctx" := TAny;
     "ctx_overrides" := TAny; "meta" := TAny ]}.

(** [interface CoreModuleOptions extends MiddlewareOptions { core: true }] *)
Definition CoreModuleOptions : ObjectType :=
  <["core" := TTrue]> MiddlewareOptions.

(** [interface ExtensionModuleOptions { ext: true }] *)
Definition ExtensionModuleOptions : ObjectType := {[ "ext" := TTrue ]}.

(** A builder interface maps each method name to the options [O] of the
    builder that the method returns: every method of the file has the
    type [() => Builder<O>]. *)
Abbreviation BuilderType := (gmap string ObjectType).

(** [[
    interface CoreModuleBuilder<TOptions> {
      coreFn: () => Builder<Spread<TOptions,
                     { _________ADDED_FROM_CORE_________: 'bar' }>>;
    }
    ]] *)
Definition CoreModuleBuilder (TOptions : ObjectType) : BuilderType :=
  {[ "coreFn" :=
       Spread TOptions
         {[ "_________ADDED_FROM_CORE_________" := TLiteral "bar" ]} ]}.

(** [interface ExtensionModuleBuilder<TOptions> { extFn: () => Builder<TOptions> }] *)
Definition ExtensionModuleBuilder (TOptions : ObjectType) : BuilderType :=
  {[ "extFn" := TOptions ]}.

Record ModuleDef := {
  pipeProps : ObjectType;
  builderProps : BuilderType
}.

(** The interface [MiddlewareModules<TOptions>] with its two members
    [[core]] and [[extension]]. *)
Definition MiddlewareModules (TOptions : ObjectType) : gmap symbol ModuleDef :=
  {[ core := {| pipeProps := CoreModuleOptions;
                builderProps := CoreModuleBuilder TOptions |};
     extension := {| pipeProps := ExtensionModuleOptions;
                     builderProps := ExtensionModuleBuilder TOptions |} ]}.

(** [[
    type Builder<TOptions> = UnionToIntersection<
      MiddlewareModules<TOptions>[TOptions['$module']]['builderProps']>;
    ]]
    Indexing by a union of names gives the union of the members, and
    [UnionToIntersection] turns it into the intersection of their
    [builderProps], an object type that has the properties of all of
    them.  The two interfaces of the file share no method name, so that
    the intersection is the union of the two maps.  Options without a
    [$module] field do not pass the constraint [extends MiddlewareOptions]. *)
Definition Builder (TOptions : ObjectType) : BuilderType :=
  match TOptions !! "$module" with
  | Some (TNames names) =>
      ⋃ (omap (λ n, builderProps <$> MiddlewareModules TOptions !! n)
              (elements names))
  | _ => ∅
  end.

(** The type argument of [Builder] in the result type of
    [createBuilder<TOptions>], where [Name] is [$Name]. *)
Definition createBuilder_options (Name : gset symbol) (TOptions : ObjectType)
  : ObjectType :=
  Spread
    (Spread {[ "ctx" := Tobject; "meta" := Tobject; "ctx_overrides" := Tobject ]}
            TOptions)
    {[ "$module" := TNames Name ]}.

(** The type checker on a chain of calls [builder.f1().f2()...]: a
    method that the builder type lacks is a compile error ([None]),
    otherwise the chain goes on with the returned builder. *)
Fixpoint check_calls (TOptions : ObjectType) (calls : list string)
  : option ObjectType :=
  match calls with
  | [] => Some TOptions
  | f :: rest =>
      match Builder TOptions !! f with
      | Some TNext => check_calls TNext rest
      | None => None
      end
  end.

(** The parameter type of [buildApi], [[Module<any>, ...Module<any>[]]],
    is a tuple type with at least one element. *)
Definition TModules {A} (modules : list A) : bool :=
  match modules with
  | [] => false
  | _ :: _ => true
  end.

End Static.

(** ** The run-time layer: heap, exceptions, and the call log *)

(** What [throw] carries: an instance of [Error] or of a subclass, with
    the class name and the message. *)
Record Error := { error_name : string; error_message : string }.

(** [new Error(message)] *)
Definition new_Error (message : string) : Error :=
  {| error_name := "Error"; error_message := message |}.

#[global] Instance Error_eq_dec : EqDecision Error.
Proof. solve_decision. Defined.

(** How the evaluation of a call ends. *)
Inductive completion (A : Type) :=
  | Return (a : A)
  | Throw (e : Error).
Arguments Return {A} a.
Arguments Throw {A} e.

(** The heap of objects, and the list of modules whose [init] has been
    entered so far, oldest first.  The list is what a test spy on [init]
    would record; no code reads it. *)
Record state := {
  heap : gmap loc object;
  init_calls : list symbol
}.

Definition M (A : Type) : Type := state → completion A * state.

#[global] Instance M_ret : MRet M := λ A a σ, (Return a, σ).

#[global] Instance M_bind : MBind M := λ A B k m σ,
  match m σ with
  | (Return a, σ') => k a σ'
  | (Throw e, σ') => (Throw e, σ')
  end.

Definition throw {A} (e : Error) : M A := λ σ, (Throw e, σ).

(** Evaluation of an object literal: a new object at a location that the
    heap does not use yet. *)
Definition alloc (o : object) : M loc := λ σ,
  let l := fresh (dom (heap σ)) in
  (Return l, {| heap := <[l := o]> (heap σ); init_calls := init_calls σ |}).

(** The assignment [o[k] = v] on an object that an object literal has
    made.  A property that [o] has is overwritten.  A key that [o] has not
    becomes a property of [o], with one exception: [__proto__] is an
    accessor that [o] inherits from [Object.prototype], the assignment
    goes to its setter, and [o] gets no property.  The setter can give [o]
    another prototype, which this embedding does not record. *)
Definition OrdinarySet (k : PropertyKey) (v : value) (o : object) : object :=
  match o !! k with
  | Some _ => <[k := v]> o
  | None => if decide (k = PString "__proto__") then o else <[k := v]> o
  end.

(** What [Object.assign] makes of the target [tgt]: every own property of
    the source is assigned to it. *)
Definition assign (tgt src : object) : object :=
  map_fold OrdinarySet tgt src.

(** [Object.assign(target, source)].  The source is read at the time of
    the call.  A reference always leads to an object; the other case only
    makes the function total. *)
Definition Object_assign (target source : loc) : M unit := λ σ,
  match heap σ !! source with
  | Some src =>
      (Return (), {| heap := alter (λ tgt, assign tgt src) target (heap σ);
                     init_calls := init_calls σ |})
  | None => (Return (), σ)
  end.

(** [array.map(callback)]: the callback runs on the elements from left to
    right; an exception thrown by it ends the traversal. *)
Fixpoint Array_map {A B} (callback : A → M B) (array : list A) : M (list B) :=
  match array with
  | [] => mret []
  | x :: rest =>
      y ← callback x;
      ys ← Array_map callback rest;
      mret (y :: ys)
  end.

(** [for (const x of iterable) body] *)
Fixpoint for_of {A} (iterable : list A) (body : A → M unit) : M unit :=
  match iterable with
  | [] => mret ()
  | x :: rest => _ ← body x; for_of rest body
  end.

(** ** Modules *)

(** The result of [init()]: by its type an object with two fields, of
    which [builderProps] is a reference to an object. *)
Record InitResult := {
  injectPipeProps : value;
  builderProps : loc
}.

(** [type Module<TName> = { name: TName; init(): {...} }].  The body of
    [init] is the module author's: it may read and write the heap, and it
    may throw. *)
Record Module := {
  name : symbol;
  init : gmap loc object → completion InitResult * gmap loc object
}.

(** The callback of line 67, [(module) => module.init()]. *)
Definition call_init (module : Module) : M InitResult := λ σ,
  let '(c, h) := init module (heap σ) in
  (c, {| heap := h; init_calls := init_calls σ ++ [name module] |}).

(** The object literal of lines 74 to 92. *)
Definition api_object : object :=
  {[ PString "createBuilder" := VFunction Fn_createBuilder ]}.

(** [buildApi]: the modules are initialised (line 67), their
    [builderProps] are merged into a new object (lines 69 to 72), and an
    object literal with the single property [createBuilder] is returned
    (lines 74 to 92). *)
Definition buildApi (modules : list Module) : M value :=
  initializedModules ← Array_map call_init modules;
  builderProps' ← alloc ∅;
  _ ← for_of initializedModules
        (λ module, Object_assign builderProps' (builderProps module));
  api ← alloc api_object;
  mret (VObject api).

(** Lines 67 to 72 on their own, with the location of the merged record
    as the result: [buildApi] does not return it, and the statements about
    the record need a name for it. *)
Definition merge_builderProps (modules : list Module) : M loc :=
  initializedModules ← Array_map call_init modules;
  builderProps' ← alloc ∅;
  _ ← for_of initializedModules
        (λ module, Object_assign builderProps' (builderProps module));
  mret builderProps'.

(** The body of the arrow function [createBuilder].  Its type argument
    is erased at run time and it has no value parameter. *)
Definition createBuilder (TOptions : Static.ObjectType) : M value :=
  throw (new_Error "Not implemented").

(** [const coreModule = (): Module<typeof core> => ({ name: core, init() { throw ... } })] *)
Definition coreModule : Module :=
  {| name := core;
     init := λ h, (Throw (new_Error "Not implemented"), h) |}.

Definition extensionModule : Module :=
  {| name := extension;
     init := λ h, (Throw (new_Error "Not implemented"), h) |}.

(** [$Name = TModules[number]['name']], the union of the modules' names. *)
Definition Name (modules : list Module) : gset symbol :=
  list_to_set (name <$> modules).

(** ** Property reads and calls *)

Definition new_TypeError (message : string) : Error :=
  {| error_name := "TypeError"; error_message := message |}.

(** What a read of a key gives on an object that inherits it from
    [Object.prototype]: one of the eleven functions, or, for the accessor
    [__proto__], the prototype, which is [Object.prototype] itself.
    [Object.prototype] has no property keyed by a symbol.  It is taken as
    the engine makes it: it is not in the heap, and no code of this
    embedding changes it. *)
Definition Object_prototype : object :=
  {[ PString "constructor" := VFunction (Fn_builtin "Object");
     PString "__defineGetter__" := VFunction (Fn_builtin "__defineGetter__");
     PString "__defineSetter__" := VFunction (Fn_builtin "__defineSetter__");
     PString "hasOwnProperty" := VFunction (Fn_builtin "hasOwnProperty");
     PString "__lookupGetter__" := VFunction (Fn_builtin "__lookupGetter__");
     PString "__lookupSetter__" := VFunction (Fn_builtin "__lookupSetter__");
     PString "isPrototypeOf" := VFunction (Fn_builtin "isPrototypeOf");
     PString "propertyIsEnumerable" := VFunction (Fn_builtin "propertyIsEnumerable");
     PString "toString" := VFunction (Fn_builtin "toString");
     PString "valueOf" := VFunction (Fn_builtin "valueOf");
     PString "toLocaleString" := VFunction (Fn_builtin "toLocaleString");
     PString "__proto__" := VIntrinsic "Object.prototype" ]}.

(** The read [o[k]] on an object that an object literal has made: the
    object's own property, or else the one inherited from
    [Object.prototype], or else [undefined]. *)
Definition get_property (o : object) (k : PropertyKey) : value :=
  match o !! k with
  | Some v => v
  | None => default VUndefined (Object_prototype !! k)
  end.

(** [v[k]].  Reading a property of [undefined] throws.  By their types
    the receivers of the file's calls are objects; what a primitive value,
    a function or a built-in object has and inherits is not modelled, a
    read on them gives [undefined] here. *)
Definition Get (v : value) (k : PropertyKey) : M value := λ σ,
  match v with
  | VObject l =>
      (Return match heap σ !! l with
              | Some o => get_property o k
              | None => VUndefined
              end, σ)
  | VUndefined =>
      (Throw (new_TypeError "Cannot read properties of undefined"), σ)
  | _ => (Return VUndefined, σ)
  end.

Section Calls.

(** What the functions supplied by module authors do when called. *)
Variable foreign : positive → M value.

(** What the functions of the engine do when called on a receiver. *)
Variable builtin : string → value → M value.

(** [f<TArg>()] with the receiver [this]: no function of the file takes a
    value argument.  The message of the [TypeError] is the engine's and
    names the callee; only its class is modelled. *)
Definition Call (f : value) (this : value) (TArg : Static.ObjectType) : M value :=
  match f with
  | VFunction Fn_createBuilder => createBuilder TArg
  | VFunction (Fn_foreign id) => foreign id
  | VFunction (Fn_builtin name) => builtin name this
  | _ => throw (new_TypeError "not a function")
  end.

(** [receiver.method<TArg>()] *)
Definition invoke (receiver : value) (method : PropertyKey)
    (TArg : Static.ObjectType) : M value :=
  f ← Get receiver method;
  Call f receiver TArg.

(** The three blocks of lines 157 to 207. *)
Definition core_only : M value :=
  api ← buildApi [coreModule];
  builder ← invoke api (PString "createBuilder")
              {[ "ctx" := Static.TShape [("foo", "bar")] ]};
  res ← invoke builder (PString "coreFn") ∅;
  invoke builder (PString "extFn") ∅.

Definition extension_only : M value :=
  api ← buildApi [extensionModule];
  builder ← invoke api (PString "createBuilder") ∅;
  _ ← invoke builder (PString "extFn") ∅;
  invoke builder (PString "coreFn") ∅.

Definition core_and_extension : M value :=
  api ← buildApi [coreModule; extensionModule];
  builder ← invoke api (PString "createBuilder")
              {[ "ctx" := Static.TShape [("foo", "bar")] ]};
  res1 ← invoke builder (PString "extFn") ∅;
  res2 ← invoke builder (PString "coreFn") ∅;
  r ← invoke builder (PString "coreFn") ∅;
  r ← invoke r (PString "extFn") ∅;
  invoke r (PString "coreFn") ∅.

End Calls.

(** ** Reading the heap *)

(** The object that a module's [builderProps] refers to in heap [h]. *)
Definition contribution (h : gmap loc object) (module : InitResult) : object :=
  default ∅ (h !! builderProps module).

(** The same for the results of all modules, in list order. *)
Definition contributions (h : gmap loc object) (modules : list InitResult)
  : list object :=
  contribution h <$> modules.

(** The target of the loop of lines 70 to 72 after the sources [srcs]
    have been assigned to it in turn, starting from [tgt]. *)
Definition assigned (tgt : object) (srcs : list object) : object :=
  foldl assign tgt srcs.

(** The sources laid over [tgt] one after the other, a later one over an
    earlier one. *)
Definition united (tgt : object) (srcs : list object) : object :=
  foldl (λ tgt src, src ∪ tgt) tgt srcs.

(** A source as [Object.assign] copies it to a target without a property
    [__proto__]: all of it but that key. *)
Definition copied (src : object) : object := delete (PString "__proto__") src.

(** No property of the object is named [__proto__]. *)
Definition no__proto__ (o : object) : Prop := o !! PString "__proto__" = None.

(** [l] can be reached from [v] by reading properties, its own or
    inherited.  A function value holds no reference, and neither does a
    built-in object. *)
Inductive reachable (h : gmap loc object) : value → loc → Prop :=
  | reachable_here l : reachable h (VObject l) l
  | reachable_step l o k l' :
      h !! l = Some o → reachable h (get_property o k) l' →
      reachable h (VObject l) l'.

(** The value is a reference to an object of the heap. *)
Definition is_reference (v : value) : bool :=
  match v with VObject _ => true | _ => false end.

(** The value is a function that a module author has supplied. *)
Definition is_foreign (v : value) : bool :=
  match v with VFunction (Fn_foreign _) => true | _ => false end.


(** ** Behaviour of modules, and what a run yields *)

(** What the [init] of a module does: it returns a [builderProps] object
    with given properties, or it throws a given error. *)
Inductive behaviour :=
  | Contributes (props : object)
  | Fails (e : Error).

(** [module] does so in every heap that extends [base], and leaves the
    objects that exist as they are.  This covers an [init] that evaluates
    an object literal on each call and one that hands out an object of
    [base]. *)
Definition behaves (base : gmap loc object) (module : Module) (b : behaviour)
  : Prop :=
  ∀ h, base ⊆ h →
    match b with
    | Contributes props =>
        ∃ r h', init module h = (Return r, h') ∧ h ⊆ h' ∧
                h' !! builderProps r = Some props
    | Fails e => ∃ h', init module h = (Throw e, h') ∧ h ⊆ h'
    end.



(** The specification's reading of the result of registration: a map that
    holds, under the name of each module, that module's capability
    contribution. *)
Definition keyed_by_module_name (modules : list Module) (rs : list InitResult)
    (capabilities : object) : Prop :=
  ∀ i m r, modules !! i = Some m → rs !! i = Some r →
           capabilities !! PSymbol (name m) = Some (VObject (builderProps r)).

(** ** Sample modules *)

(** A module written the usual way: [init() { return { injectPipeProps,
    builderProps: { ...props } } }] evaluates the object literal on each
    call. *)
Definition literal_module (n : symbol) (props : object) : Module :=
  {| name := n;
     init := λ h,
       let l := fresh (dom h) in
       (Return {| injectPipeProps := VFunction (Fn_foreign 1); builderProps := l |},
        <[l := props]> h) |}.

(** A module that hands out one and the same object on each call:
    [const props = {...}; ... init() { return { injectPipeProps, builderProps: props } }]. *)
Definition shared_module (n : symbol) (props : loc) : Module :=
  {| name := n;
     init := λ h,
       (Return {| injectPipeProps := VFunction (Fn_foreign 1); builderProps := props |},
        h) |}.

Definition empty_state : state := {| heap := ∅; init_calls := [] |}.

Definition coreFn_impl : value := VFunction (Fn_foreign 10).
Definition extFn_impl : value := VFunction (Fn_foreign 20).

Definition working_core : Module :=
  literal_module core {[ PString "coreFn" := coreFn_impl ]}.

Definition working_extension : Module :=
  literal_module extension {[ PString "extFn" := extFn_impl ]}.

(** Two modules that both declare the operation [coreFn]. *)
Definition clashing_extension : Module :=
  literal_module extension
    {[ PString "coreFn" := extFn_impl; PString "extFn" := extFn_impl ]}.

(** A module that declares an operation named [__proto__], with a
    computed key: [builderProps: { ['__proto__']: fn }]. *)
Definition module_with__proto__ : Module :=
  literal_module core {[ PString "__proto__" := coreFn_impl ]}.

(** A module whose [init] throws the error [e]. *)
Definition failing_module (n : symbol) (e : Error) : Module :=
  {| name := n; init := λ h, (Throw e, h) |}.

(** Two modules more, declared the way the file declares [core] and
    [extension]: a symbol for the name, an interface for the options, a
    member of [MiddlewareModules], and a factory whose [init] throws.
    The options of both have the field [x]. *)
Definition first : symbol := Symbol "first" 3.
Definition second : symbol := Symbol "second" 4.

Definition FirstModuleOptions : Static.ObjectType :=
  {[ "x" := Static.TLiteral "one" ]}.

Definition SecondModuleOptions : Static.ObjectType :=
  {[ "x" := Static.TLiteral "two" ]}.

Definition MiddlewareModules_with_first_and_second (TOptions : Static.ObjectType)
  : gmap symbol Static.ModuleDef :=
  <[first := {| Static.pipeProps := FirstModuleOptions;
                Static.builderProps := ∅ |}]>
    (<[second := {| Static.pipeProps := SecondModuleOptions;
                    Static.builderProps := ∅ |}]>
       (Static.MiddlewareModules TOptions)).

Definition firstModule : Module :=
  failing_module first (new_Error "Not implemented").

Definition secondModule : Module :=
  failing_module second (new_Error "Not implemented").

(** ** Definitions for the further properties *)

(** The record that [coreFn] spreads over the options of its builder
    (lines 107 to 110). *)
Definition ADDED_FROM_CORE : Static.ObjectType :=
  {[ "_________ADDED_FROM_CORE_________" := Static.TLiteral "bar" ]}.

(** Two modules whose [init] do the same to the heap and give the same
    [builderProps], or throw the same error; their names and their
    [injectPipeProps] may differ. *)
Definition same_builderProps (m1 m2 : Module) : Prop :=
  ∀ h,
    match init m1 h, init m2 h with
    | (Return r1, h1), (Return r2, h2) => builderProps r1 = builderProps r2 ∧ h1 = h2
    | (Throw e1, h1), (Throw e2, h2) => e1 = e2 ∧ h1 = h2
    | _, _ => False
    end.

(** A module like [literal_module] with an [injectPipeProps] of its own. *)
Definition literal_module_injecting (n : symbol) (inject : value) (props : object)
  : Module :=
  {| name := n;
     init := λ h,
       let l := fresh (dom h) in
       (Return {| injectPipeProps := inject; builderProps := l |},
        <[l := props]> h) |}.

(** ** The chat example: who is typing *)

(** The router of the chat example keeps, for each channel, the users who
    are typing: [channelRouter.isTyping] records a keystroke, a timer
    sweeps out the users who have stopped, and the subscription
    [channelRouter.whoIsTyping] reports the changes. *)
Module Channel.

(** [WhoIsTyping = Record<string, { lastTyped: Date }>]: under a user's
    name, the time of the last keystroke, in milliseconds as
    [Date.getTime] gives it. *)
Abbreviation WhoIsTyping := (gmap string Z).

(** [typers[key] = value] on an object that [{}] has made: an own property
    is written, except under the key [__proto__], which the setter of
    [Object.prototype] takes, so that no own property appears. *)
Definition set_property (key : string) (value : Z) (typers : WhoIsTyping)
  : WhoIsTyping :=
  if decide (key = "__proto__") then typers else <[key := value]> typers.

(** The mutation [isTyping] (lines 70 to 84), for the user [name] at time
    [now] (what [new Date()] gives).  The result is the new
    [currentlyTyping] and the arguments of the [isTypingUpdate] event. *)
Definition isTyping (name channelId : string) (typing : bool) (now : Z)
    (currentlyTyping : gmap string WhoIsTyping)
  : gmap string WhoIsTyping * (string * WhoIsTyping) :=
  (* currentlyTyping[channelId] ??= {} *)
  let currentlyTyping :=
    match currentlyTyping !! channelId with
    | Some _ => currentlyTyping
    | None => <[channelId := ∅]> currentlyTyping
    end in
  let currentlyTyping :=
    if negb typing
    then alter (delete name) channelId currentlyTyping
    else alter (set_property name now) channelId currentlyTyping in
  (currentlyTyping, (channelId, default ∅ (currentlyTyping !! channelId))).

(** [now - value.lastTyped.getTime() > 3e3] *)
Definition stale (now lastTyped : Z) : bool := bool_decide (now - lastTyped > 3000)%Z.

(** The inner loop of the timer (lines 37 to 42), over the entries that
    the channel has when the loop starts. *)
Definition sweep_typers (now : Z) (channelId : string) (typers : WhoIsTyping)
    (updatedChannels : gset string) : WhoIsTyping * gset string :=
  foldl (λ '(typers, updatedChannels) '(key, lastTyped),
           if stale now lastTyped
           then (delete key typers, {[ channelId ]} ∪ updatedChannels)
           else (typers, updatedChannels))
        (typers, updatedChannels) (map_to_list typers).

(** The callback of the timer (lines 33 to 47) run at time [now] (what
    [Date.now()] gives): the new [currentlyTyping] and the set
    [updatedChannels].  For each channel of the set the callback then
    emits the event [(channelId, currentlyTyping[channelId] ?? {})]. *)
Definition sweep (now : Z) (currentlyTyping : gmap string WhoIsTyping)
  : gmap string WhoIsTyping * gset string :=
  foldl (λ '(currentlyTyping, updatedChannels) '(channelId, typers),
           let '(typers, updatedChannels) :=
             sweep_typers now channelId typers updatedChannels in
           (<[channelId := typers]> currentlyTyping, updatedChannels))
        (currentlyTyping, ∅) (map_to_list currentlyTyping).

(** The event that the timer emits for a channel, if any. *)
Definition sweep_emits (now : Z) (currentlyTyping : gmap string WhoIsTyping)
    (channelId : string) : option WhoIsTyping :=
  if decide (channelId ∈ (sweep now currentlyTyping).2)
  then Some (default ∅ ((sweep now currentlyTyping).1 !! channelId))
  else None.

(** The order of strings that the default comparison of [toSorted] uses:
    by code units, a prefix before its extensions.  A string is here the
    sequence of its bytes, which for names in ASCII are its code units. *)
Definition code_unit_le (a b : string) : Prop := String.leb a b.

#[global] Instance code_unit_le_dec a b : Decision (code_unit_le a b).
Proof. unfold code_unit_le. apply _. Defined.

(** [keys.toSorted()] *)
Definition toSorted (keys : list string) : list string :=
  merge_sort code_unit_le keys.

(** [keys.toString()]: the elements joined by commas. *)
Definition toString (keys : list string) : string := String.concat "," keys.

(** The generator [maybeYield] (lines 101 to 109), applied to
    [Object.keys(who)] with the current value of [lastIsTyping]: what it
    yields, and [lastIsTyping] when it is done. *)
Definition maybeYield (keys : list string) (lastIsTyping : string)
  : list (list string) * string :=
  let idx := toString (toSorted keys) in
  if decide (idx = lastIsTyping) then ([], lastIsTyping)
  else ([keys], idx).

(** The generator of the subscription [whoIsTyping] (lines 92 to 121):
    [initial] are the keys of [currentlyTyping[channelId] ?? {}] when it
    starts and [events] are the [isTypingUpdate] events that it receives,
    each with the keys that its object has when the generator reads them.
    The result is what has been yielded, with [lastIsTyping]. *)
Definition whoIsTyping (channelId : string) (initial : list string)
    (events : list (string * list string)) : list (list string) * string :=
  foldl (λ '(yielded, lastIsTyping) '(channelId', who),
           if decide (channelId' = channelId)
           then let '(ys, lastIsTyping) := maybeYield who lastIsTyping in
                (yielded ++ ys, lastIsTyping)
           else (yielded, lastIsTyping))
        (maybeYield initial "")
        events.

(** The [who] of the last event for the channel among [events], or
    [initial] when there is none: what the generator has read last. *)
Definition latest (channelId : string) (initial : list string)
    (events : list (string * list string)) : list string :=
  default initial (last (snd <$> filter (λ e, e.1 = channelId) events)).

(** A user name without a comma in it, and not the empty string. *)
Fixpoint has_comma (s : string) : bool :=
  match s with
  | EmptyString => false
  | String c s => bool_decide (String c "" = ",") || has_comma s
  end.

Definition plain_name (s : string) : Prop := s ≠ "" ∧ has_comma s = false.

(** What a call of [isTyping] does to the users of its channel. *)
Definition isTyping_update (name : string) (typing : bool) (now : Z)
    (typers : WhoIsTyping) : WhoIsTyping :=
  if typing then set_property name now typers else delete name typers.

(** What changes [currentlyTyping]: a call of [isTyping], or the timer. *)
Inductive action :=
  | IsTyping (name channelId : string) (typing : bool) (now : Z)
  | Timer (now : Z).

Definition step (currentlyTyping : gmap string WhoIsTyping) (a : action)
  : gmap string WhoIsTyping :=
  match a with
  | IsTyping name channelId typing now =>
      (isTyping name channelId typing now currentlyTyping).1
  | Timer now => (sweep now currentlyTyping).1
  end.

Definition run (actions : list action)
    (currentlyTyping : gmap string WhoIsTyping) : gmap string WhoIsTyping :=
  foldl step currentlyTyping actions.

End Channel.

(** * Properties *)

(** ** The monad *)

Lemma bind_run {A B} (m : M A) (k : A → M B) σ :
  (m ≫= k) σ = match m σ with
               | (Return a, σ') => k a σ'
               | (Throw e, σ') => (Throw e, σ')
               end.
Proof. reflexivity. Qed.

Lemma ret_run {A} (a : A) σ : (mret a : M A) σ = (Return a, σ).
Proof. reflexivity. Qed.

(** ** The merge of objects *)

Lemma united_cons tgt src srcs :
  united tgt (src :: srcs) = united (src ∪ tgt) srcs.
Proof. reflexivity. Qed.

Lemma united_app tgt srcs1 srcs2 :
  united tgt (srcs1 ++ srcs2) = united (united tgt srcs1) srcs2.
Proof. apply foldl_app. Qed.

Lemma dom_united tgt srcs :
  dom (united tgt srcs) = dom tgt ∪ ⋃ (dom <$> srcs).
Proof.
  revert tgt. induction srcs as [|src srcs IH]; intros tgt.
  - cbn. by rewrite union_empty_r_L.
  - rewrite united_cons, IH, dom_union_L, fmap_cons. cbn.
    by rewrite (comm_L (∪) (dom src)), (assoc_L (∪)).
Qed.

(** A key of the merged record comes from the start value or from one of
    the sources, with the value it has there. *)
Lemma united_lookup_Some tgt srcs k v :
  united tgt srcs !! k = Some v →
  tgt !! k = Some v ∨ ∃ src, src ∈ srcs ∧ src !! k = Some v.
Proof.
  revert tgt. induction srcs as [|src srcs IH]; intros tgt.
  - cbn. auto.
  - rewrite united_cons. intros Hk.
    destruct (IH _ Hk) as [Hu | (s & Hs & Hs')].
    + destruct (proj1 (lookup_union_Some_raw _ _ _ _) Hu) as [Hl | [_ Hr]].
      * right. exists src. split; [left | done].
      * by left.
    + right. exists s. split; [by right | done].
Qed.

(** Sources without the key leave its value as it is. *)
Lemma united_lookup_skip tgt srcs k :
  Forall (λ o : object, o !! k = None) srcs →
  united tgt srcs !! k = tgt !! k.
Proof.
  intros Hsrcs. revert tgt.
  induction Hsrcs as [|src srcs Hsrc _ IH]; intros tgt; [done|].
  by rewrite united_cons, IH, lookup_union_r.
Qed.

(** The last source that has a key decides its value. *)
Lemma united_lookup_last tgt pre src post k v :
  src !! k = Some v →
  Forall (λ o : object, o !! k = None) post →
  united tgt (pre ++ src :: post) !! k = Some v.
Proof.
  intros Hsrc Hpost.
  rewrite united_app, united_cons, united_lookup_skip by done.
  by apply lookup_union_Some_l.
Qed.

(** Among sources with pairwise disjoint key sets, a key has one owner. *)
Lemma disjoint_sources_agree (srcs : list object) src1 src2 k v1 v2 :
  map_disjoint_list srcs →
  src1 ∈ srcs → src2 ∈ srcs →
  src1 !! k = Some v1 → src2 !! k = Some v2 →
  v1 = v2.
Proof.
  intros Hdisj [j1 Hj1]%list_elem_of_lookup [j2 Hj2]%list_elem_of_lookup Hk1 Hk2.
  destruct (decide (j1 = j2)) as [-> | Hne].
  - congruence.
  - pose proof (Hdisj j1 j2 src1 src2 Hne Hj1 Hj2) as Hd.
    rewrite map_disjoint_spec in Hd. by destruct (Hd k v1 v2).
Qed.

(** With pairwise disjoint key sets the merge is the plain union: it has
    the entries of the sources and no others. *)
Lemma united_disjoint_lookup (srcs : list object) k v :
  map_disjoint_list srcs →
  united ∅ srcs !! k = Some v ↔ ∃ src, src ∈ srcs ∧ src !! k = Some v.
Proof.
  intros Hdisj. split.
  - intros Hk. apply united_lookup_Some in Hk as [Hk' | Hk']; [|done].
    by rewrite lookup_empty in Hk'.
  - intros (src & Hsrc & Hk).
    assert (k ∈ dom (united ∅ srcs)) as Hin.
    { rewrite dom_united. apply elem_of_union_r, elem_of_union_list.
      exists (dom src). split; [|by apply elem_of_dom_2 in Hk].
      apply list_elem_of_fmap. by exists src. }
    apply elem_of_dom in Hin as [w Hw].
    rewrite Hw. f_equal.
    pose proof (united_lookup_Some _ _ _ _ Hw) as [Hw' | (src' & Hsrc' & Hw')].
    + by rewrite lookup_empty in Hw'.
    + exact (disjoint_sources_agree srcs src' src k w v Hdisj Hsrc' Hsrc Hw' Hk).
Qed.

(** ** Assignment *)

Lemma OrdinarySet_insert k v (o : object) :
  k ≠ PString "__proto__" → OrdinarySet k v o = <[k := v]> o.
Proof. intros Hk. unfold OrdinarySet. destruct (o !! k); [done|]. by rewrite decide_False. Qed.

Lemma OrdinarySet__proto__ v (o : object) :
  no__proto__ o → OrdinarySet (PString "__proto__") v o = o.
Proof. intros Ho. unfold OrdinarySet. by rewrite Ho, decide_True. Qed.

Lemma copied_id (src : object) : no__proto__ src → copied src = src.
Proof. apply delete_id. Qed.

Lemma copied_no__proto__ (src : object) : no__proto__ (copied src).
Proof. apply lookup_delete_eq. Qed.

(** On a target without a property [__proto__], [Object.assign] lays the
    source over the target, all of it but a property [__proto__]. *)
Lemma assign_copied (tgt src : object) :
  no__proto__ tgt → assign tgt src = copied src ∪ tgt.
Proof.
  intros Htgt. unfold assign, copied.
  apply (map_fold_weak_ind
           (λ r m, r = delete (PString "__proto__") m ∪ tgt)).
  - by rewrite delete_empty, (left_id_L ∅ (∪)).
  - intros k v m r Hk ->.
    destruct (decide (k = PString "__proto__")) as [-> | Hne].
    + rewrite delete_insert_eq. apply OrdinarySet__proto__.
      unfold no__proto__. by rewrite lookup_union_r by apply lookup_delete_eq.
    + rewrite OrdinarySet_insert by done.
      by rewrite delete_insert_ne, insert_union_l by done.
Qed.

Lemma assign_no__proto__ (tgt src : object) :
  no__proto__ tgt → no__proto__ (assign tgt src).
Proof.
  intros Htgt. rewrite assign_copied by done. unfold no__proto__.
  by rewrite lookup_union_r by apply copied_no__proto__.
Qed.

Lemma assign_empty (tgt : object) : assign tgt ∅ = tgt.
Proof. apply map_fold_empty. Qed.

(** Assigning an object to itself changes nothing. *)
Lemma assign_self (tgt : object) : assign tgt tgt = tgt.
Proof.
  unfold assign.
  assert (∀ m : object, m ⊆ tgt → map_fold OrdinarySet tgt m = tgt) as H;
    [|by apply H].
  intros m. apply (map_fold_weak_ind (λ r m, m ⊆ tgt → r = tgt)); [done|].
  clear m. intros k v m r Hk IH Hsub.
  rewrite IH by (etrans; [by apply insert_subseteq | done]).
  assert (tgt !! k = Some v) as Hv
    by (apply (lookup_weaken _ _ _ _ (lookup_insert_eq m k v) Hsub)).
  unfold OrdinarySet. rewrite Hv. by apply insert_id.
Qed.

Lemma assigned_cons tgt src srcs :
  assigned tgt (src :: srcs) = assigned (assign tgt src) srcs.
Proof. reflexivity. Qed.

(** The loop of lines 70 to 72 on a target without a property
    [__proto__]: the sources are laid over it in turn, each without a
    property [__proto__]. *)
Lemma assigned_united tgt srcs :
  no__proto__ tgt → assigned tgt srcs = united tgt (copied <$> srcs).
Proof.
  revert tgt. induction srcs as [|src srcs IH]; intros tgt Htgt; [done|].
  rewrite assigned_cons, IH by by apply assign_no__proto__.
  by rewrite fmap_cons, united_cons, assign_copied.
Qed.

Lemma copied_sources (srcs : list object) :
  Forall no__proto__ srcs → copied <$> srcs = srcs.
Proof.
  induction 1 as [|src srcs Hsrc _ IH]; [done|].
  by rewrite fmap_cons, IH, copied_id.
Qed.

(** Sources without a property [__proto__] are laid over one another as
    they are. *)
Lemma assigned_plain (srcs : list object) :
  Forall no__proto__ srcs → assigned ∅ srcs = united ∅ srcs.
Proof.
  intros Hsrcs. rewrite assigned_united by apply lookup_empty.
  by rewrite copied_sources.
Qed.

(** ** The initialisation of the modules *)

Lemma Array_map_cons {A B} (callback : A → M B) x rest σ :
  Array_map callback (x :: rest) σ =
  match callback x σ with
  | (Return y, σ') =>
      match Array_map callback rest σ' with
      | (Return ys, σ'') => (Return (y :: ys), σ'')
      | (Throw e, σ'') => (Throw e, σ'')
      end
  | (Throw e, σ') => (Throw e, σ')
  end.
Proof.
  cbn [Array_map]. rewrite bind_run. destruct (callback x σ) as [[y|e] σ']; [|done].
  rewrite bind_run. by destruct (Array_map callback rest σ') as [[ys|e] σ''].
Qed.

Lemma Array_map_app {A B} (callback : A → M B) pre post σ :
  Array_map callback (pre ++ post) σ =
  match Array_map callback pre σ with
  | (Return ys, σ') =>
      match Array_map callback post σ' with
      | (Return zs, σ'') => (Return (ys ++ zs), σ'')
      | (Throw e, σ'') => (Throw e, σ'')
      end
  | (Throw e, σ') => (Throw e, σ')
  end.
Proof.
  revert σ. induction pre as [|x pre IH]; intros σ.
  - cbn [app Array_map]. rewrite ret_run.
    by destruct (Array_map callback post σ) as [[zs|e] σ''].
  - rewrite <- app_comm_cons, !Array_map_cons.
    destruct (callback x σ) as [[y|e] σ']; [|done].
    rewrite IH. destruct (Array_map callback pre σ') as [[ys|e] σ'']; [|done].
    by destruct (Array_map callback post σ'') as [[zs|e] σ3].
Qed.

Lemma call_init_run module σ :
  call_init module σ =
  ((init module (heap σ)).1,
   {| heap := (init module (heap σ)).2;
      init_calls := init_calls σ ++ [name module] |}).
Proof. unfold call_init. by destruct (init module (heap σ)). Qed.

(** When every [init] returns, each has been entered once, in list order,
    and there is one result for each module. *)
Lemma init_phase_Return modules σ rs σ1 :
  Array_map call_init modules σ = (Return rs, σ1) →
  init_calls σ1 = init_calls σ ++ (name <$> modules) ∧
  length rs = length modules.
Proof.
  revert σ rs. induction modules as [|m modules IH]; intros σ rs.
  - cbn. rewrite ret_run. intros [= <- <-]. by rewrite app_nil_r.
  - rewrite Array_map_cons, call_init_run.
    destruct (init m (heap σ)) as [[r|e] h]; [|done]. cbn [fst snd].
    destruct (Array_map call_init modules _) as [[rs'|e] σ'] eqn:Hrest; [|done].
    intros [= <- <-]. destruct (IH _ _ Hrest) as [Hcalls Hlen].
    split; [|by cbn; rewrite Hlen].
    rewrite Hcalls. cbn. by rewrite <- app_assoc.
Qed.

(** When the initialisation throws, it is the [init] of one module [m]
    that has thrown: those before it have returned, those after it have
    not been entered. *)
Lemma init_phase_Throw modules σ e σ1 :
  Array_map call_init modules σ = (Throw e, σ1) →
  ∃ pre m post rs σm,
    modules = pre ++ m :: post ∧
    Array_map call_init pre σ = (Return rs, σm) ∧
    init m (heap σm) = (Throw e, heap σ1) ∧
    init_calls σ1 = init_calls σ ++ (name <$> pre) ++ [name m].
Proof.
  revert σ. induction modules as [|m modules IH]; intros σ.
  - cbn. by rewrite ret_run.
  - rewrite Array_map_cons, call_init_run.
    destruct (init m (heap σ)) as [[r|e'] h] eqn:Hinit; cbn [fst snd].
    + destruct (Array_map call_init modules _) as [[rs'|e'] σ'] eqn:Hrest; [done|].
      intros [= -> ->].
      destruct (IH _ Hrest) as (pre & m' & post & rs & σm & -> & Hpre & Hm' & Hcalls).
      exists (m :: pre), m', post, (r :: rs), σm. split; [done|].
      split; [|split; [done|]].
      * rewrite Array_map_cons, call_init_run, Hinit. cbn [fst snd].
        by rewrite Hpre.
      * rewrite Hcalls. cbn. by rewrite <- app_assoc.
    + intros [= -> <-]. exists [], m, modules, [], σ.
      cbn. by rewrite ret_run, Hinit.
Qed.

(** ** The merge loop *)

(** The loop of lines 70 to 72, run with a target that the sources do not
    alias: the target ends as the merge of the sources and no other
    object changes. *)
Lemma for_of_Object_assign h target tgt calls rs :
  h !! target = None →
  for_of rs (λ module, Object_assign target (builderProps module))
    {| heap := <[target := tgt]> h; init_calls := calls |} =
  (Return (),
   {| heap := <[target := assigned tgt (contribution h <$> rs)]> h;
      init_calls := calls |}).
Proof.
  intros Hfresh. revert tgt.
  induction rs as [|r rs IH]; intros tgt; [done|].
  cbn [for_of]. rewrite bind_run. unfold Object_assign at 1. cbn [heap init_calls].
  rewrite fmap_cons, assigned_cons.
  destruct (decide (builderProps r = target)) as [Heq | Hne].
  - assert (contribution h r = ∅) as ->
      by (unfold contribution; by rewrite Heq, Hfresh).
    rewrite Heq, lookup_insert_eq, alter_insert_eq.
    by rewrite assign_self, assign_empty, IH.
  - rewrite lookup_insert_ne by done. unfold contribution at 1.
    destruct (h !! builderProps r) as [src|]; cbn [default].
    + by rewrite alter_insert_eq, IH.
    + by rewrite assign_empty, IH.
Qed.

(** The merge of lines 67 to 72 as one equation. *)
Lemma merge_builderProps_run modules σ :
  merge_builderProps modules σ =
  match Array_map call_init modules σ with
  | (Return rs, σ1) =>
      let target := fresh (dom (heap σ1)) in
      (Return target,
       {| heap := <[target := assigned ∅ (contribution (heap σ1) <$> rs)]> (heap σ1);
          init_calls := init_calls σ1 |})
  | (Throw e, σ1) => (Throw e, σ1)
  end.
Proof.
  unfold merge_builderProps. rewrite bind_run.
  destruct (Array_map call_init modules σ) as [[rs|e] σ1]; [|done].
  rewrite bind_run. unfold alloc at 1. cbn [heap init_calls].
  rewrite bind_run, for_of_Object_assign.
  - by rewrite ret_run.
  - apply not_elem_of_dom, is_fresh.
Qed.

(** [buildApi] is the merge followed by the allocation of the returned
    object. *)
Lemma buildApi_run modules σ :
  buildApi modules σ =
  match merge_builderProps modules σ with
  | (Return _, σ2) =>
      let api := fresh (dom (heap σ2)) in
      (Return (VObject api),
       {| heap := <[api := api_object]> (heap σ2);
          init_calls := init_calls σ2 |})
  | (Throw e, σ2) => (Throw e, σ2)
  end.
Proof.
  rewrite merge_builderProps_run. unfold buildApi. rewrite bind_run.
  destruct (Array_map call_init modules σ) as [[rs|e] σ1]; [|done].
  rewrite bind_run. unfold alloc at 1. cbn [heap init_calls].
  rewrite bind_run, for_of_Object_assign.
  - by rewrite bind_run.
  - apply not_elem_of_dom, is_fresh.
Qed.

(** ** The two ways [buildApi] can end *)

(** When every [init] returns, [buildApi] returns: it adds two objects to
    the heap that the initialisation has left, the merged record at
    [target] and the returned object at [api]. *)
Lemma buildApi_Return modules σ rs σ1 :
  Array_map call_init modules σ = (Return rs, σ1) →
  let target := fresh (dom (heap σ1)) in
  let composite := assigned ∅ (contribution (heap σ1) <$> rs) in
  let h2 := <[target := composite]> (heap σ1) in
  let api := fresh (dom h2) in
  merge_builderProps modules σ =
    (Return target, {| heap := h2; init_calls := init_calls σ1 |}) ∧
  buildApi modules σ =
    (Return (VObject api),
     {| heap := <[api := api_object]> h2; init_calls := init_calls σ1 |}) ∧
  heap σ1 !! target = None ∧
  h2 !! api = None ∧
  target ≠ api.
Proof.
  intros Hinit target composite h2 api.
  assert (heap σ1 !! target = None) as Htarget
    by apply not_elem_of_dom, is_fresh.
  assert (h2 !! api = None) as Hapi by apply not_elem_of_dom, is_fresh.
  split; [|split; [|split; [done|split; [done|]]]].
  - by rewrite merge_builderProps_run, Hinit.
  - by rewrite buildApi_run, merge_builderProps_run, Hinit.
  - intros Heq. rewrite <- Heq in Hapi. unfold h2 in Hapi.
    by rewrite lookup_insert_eq in Hapi.
Qed.

(** When an [init] throws, [buildApi] ends with that error in the state
    that the initialisation has left: nothing has been merged. *)
Lemma buildApi_Throw modules σ e σ1 :
  Array_map call_init modules σ = (Throw e, σ1) →
  merge_builderProps modules σ = (Throw e, σ1) ∧
  buildApi modules σ = (Throw e, σ1).
Proof.
  intros Hinit.
  by rewrite buildApi_run, merge_builderProps_run, Hinit.
Qed.

(** [buildApi] returns only when every [init] has returned. *)
Lemma buildApi_Return_inv modules σ v σ' :
  buildApi modules σ = (Return v, σ') →
  ∃ rs σ1, Array_map call_init modules σ = (Return rs, σ1).
Proof.
  destruct (Array_map call_init modules σ) as [[rs|e] σ1] eqn:Hinit; [by eauto|].
  destruct (buildApi_Throw _ _ _ _ Hinit) as [_ ->]. done.
Qed.


Lemma map_disjoint_list_pair (o1 o2 : object) :
  dom o1 ## dom o2 → map_disjoint_list [o1; o2].
Proof.
  intros Hd. apply map_disjoint_list_cons_2.
  - constructor; [|constructor]. symmetry. by apply map_disjoint_dom_2.
  - apply map_disjoint_list_cons_2; [constructor | apply map_disjoint_list_nil].
Qed.

(** ** C1: the names in the merged record *)

(** C1, counterexample.  One module, which declares the one operation
    [__proto__].  [buildApi] returns, and the record it has merged (at
    location 2) is empty: the name that the module contributed is
    missing. *)
Lemma operation__proto___is_missing :
  [module_with__proto__] ≠ [] ∧
  (Array_map call_init [module_with__proto__] empty_state).1
    = Return [ {| injectPipeProps := VFunction (Fn_foreign 1);
                  builderProps := 1%positive |} ] ∧
  heap (Array_map call_init [module_with__proto__] empty_state).2 !! 1%positive
    = Some {[ PString "__proto__" := coreFn_impl ]} ∧
  (merge_builderProps [module_with__proto__] empty_state).1 = Return 2%positive ∧
  (buildApi [module_with__proto__] empty_state).1 = Return (VObject 3%positive) ∧
  heap (buildApi [module_with__proto__] empty_state).2 !! 2%positive = Some ∅ ∧
  dom (∅ : object) ≠ {[ PString "__proto__" ]}.
Proof.
  split; [done|]. split; [by vm_compute|]. split; [by vm_compute|].
  split; [by vm_compute|]. split; [by vm_compute|]. split; [by vm_compute|].
  rewrite dom_empty_L. intros Heq.
  assert (PString "__proto__" ∈ (∅ : gset PropertyKey)) as Hin
    by (rewrite Heq; by apply elem_of_singleton).
  by apply not_elem_of_empty in Hin.
Qed.

(** C1, amended.  For a non-empty list of modules whose [init] all return
    and whose [builderProps], as the merge loop reads them, have pairwise
    disjoint key sets without the key [__proto__], [buildApi] returns and
    the record it has merged (the local [builderProps] of lines 69 to 72)
    has as its keys the union of the keys of the modules' [builderProps]:
    no name is missing and none is added.  Each name also keeps the value
    that its module gave it. *)
Theorem buildApi_names_union (modules : list Module) (σ : state)
    (rs : list InitResult) (σ1 : state) :
  modules ≠ [] →
  Array_map call_init modules σ = (Return rs, σ1) →
  map_disjoint_list (contributions (heap σ1) rs) →
  Forall no__proto__ (contributions (heap σ1) rs) →
  ∃ target σ2 api σ3 composite,
    merge_builderProps modules σ = (Return target, σ2) ∧
    buildApi modules σ = (Return (VObject api), σ3) ∧
    heap σ3 !! target = Some composite ∧
    dom composite = ⋃ (dom <$> contributions (heap σ1) rs) ∧
    ∀ k v, composite !! k = Some v ↔
           ∃ r, r ∈ rs ∧ contribution (heap σ1) r !! k = Some v.
Proof.
  intros _ Hinit Hdisj Hplain.
  destruct (buildApi_Return _ _ _ _ Hinit) as (Hmerge & Hbuild & _ & _ & Hne).
  eexists _, _, _, _, _. split; [exact Hmerge|]. split; [exact Hbuild|].
  cbn [heap]. split; [|split].
  - rewrite lookup_insert_ne by done. apply lookup_insert_eq.
  - fold (contributions (heap σ1) rs). rewrite assigned_plain by done.
    by rewrite dom_united, dom_empty_L, (left_id_L ∅ (∪)).
  - intros k v. fold (contributions (heap σ1) rs).
    rewrite assigned_plain, united_disjoint_lookup by done. split.
    + intros (src & Hsrc & Hk). apply list_elem_of_fmap in Hsrc as (r & -> & Hr).
      by exists r.
    + intros (r & Hr & Hk). exists (contribution (heap σ1) r).
      split; [|done]. apply list_elem_of_fmap. by exists r.
Qed.

(** C1, witness: the two working modules, from the empty heap. *)
Lemma buildApi_names_union_witness :
  ∃ target σ2 api σ3 composite,
    merge_builderProps [working_core; working_extension] empty_state
      = (Return target, σ2) ∧
    buildApi [working_core; working_extension] empty_state
      = (Return (VObject api), σ3) ∧
    heap σ3 !! target = Some composite ∧
    dom composite = {[ PString "coreFn"; PString "extFn" ]}.
Proof.
  destruct (buildApi_names_union [working_core; working_extension] empty_state
              [ {| injectPipeProps := VFunction (Fn_foreign 1); builderProps := 1%positive |};
                {| injectPipeProps := VFunction (Fn_foreign 1); builderProps := 2%positive |} ]
              {| heap := {[ 1%positive := {[ PString "coreFn" := coreFn_impl ]};
                            2%positive := {[ PString "extFn" := extFn_impl ]} ]};
                 init_calls := [core; extension] |})
    as (target & σ2 & api & σ3 & composite & Hmerge & Hbuild & Hlook & Hdom & _).
  - done.
  - vm_compute. reflexivity.
  - apply map_disjoint_list_pair.
    refine (bool_decide_unpack _ _). vm_compute. exact I.
  - repeat (apply Forall_cons; split; [by vm_compute|]). by apply Forall_nil.
  - exists target, σ2, api, σ3, composite.
    split; [exact Hmerge|]. split; [exact Hbuild|]. split; [exact Hlook|].
    rewrite Hdom. vm_compute. reflexivity.
Defined.

(** ** C2: two modules with the same operation name *)

(** C2, counterexample.  [working_core] and [clashing_extension] both
    declare [coreFn].  Registration does not fail: [buildApi] returns, and
    in the merged record (at location 3) [coreFn] holds the value of the
    later module; the value of the first one is gone. *)
Lemma duplicate_name_is_shadowed :
  (merge_builderProps [working_core; clashing_extension] empty_state).1
    = Return 3%positive ∧
  (buildApi [working_core; clashing_extension] empty_state).1
    = Return (VObject 4%positive) ∧
  heap (buildApi [working_core; clashing_extension] empty_state).2 !! 3%positive
    = Some {[ PString "coreFn" := extFn_impl; PString "extFn" := extFn_impl ]} ∧
  coreFn_impl ≠ extFn_impl.
Proof. vm_compute. repeat split; discriminate. Qed.

(** C2, amended.  A name declared by several modules is no error: when
    every [init] returns and no module declares the name [__proto__],
    [buildApi] returns, and the merged record holds under each name the
    value given by the last module, in list order, that declares it. *)
Theorem buildApi_last_declaration_wins (modules : list Module) (σ : state)
    (rs : list InitResult) (σ1 : state) pre r post k v :
  Array_map call_init modules σ = (Return rs, σ1) →
  Forall no__proto__ (contributions (heap σ1) rs) →
  rs = pre ++ r :: post →
  contribution (heap σ1) r !! k = Some v →
  Forall (λ r', contribution (heap σ1) r' !! k = None) post →
  ∃ target σ2 api σ3 composite,
    merge_builderProps modules σ = (Return target, σ2) ∧
    buildApi modules σ = (Return (VObject api), σ3) ∧
    heap σ3 !! target = Some composite ∧
    composite !! k = Some v.
Proof.
  intros Hinit Hplain -> Hk Hpost.
  destruct (buildApi_Return _ _ _ _ Hinit) as (Hmerge & Hbuild & _ & _ & Hne).
  eexists _, _, _, _, _. split; [exact Hmerge|]. split; [exact Hbuild|].
  cbn [heap]. split.
  - rewrite lookup_insert_ne by done. apply lookup_insert_eq.
  - fold (contributions (heap σ1) (pre ++ r :: post)).
    rewrite assigned_plain by done. unfold contributions.
    rewrite fmap_app, fmap_cons. apply united_lookup_last; [done|].
    by apply Forall_fmap.
Qed.

(** C2, witness: the two modules of the counterexample. *)
Lemma buildApi_last_declaration_wins_witness :
  ∃ target σ2 api σ3 composite,
    merge_builderProps [working_core; clashing_extension] empty_state
      = (Return target, σ2) ∧
    buildApi [working_core; clashing_extension] empty_state
      = (Return (VObject api), σ3) ∧
    heap σ3 !! target = Some composite ∧
    composite !! PString "coreFn" = Some extFn_impl.
Proof.
  apply (buildApi_last_declaration_wins
           [working_core; clashing_extension] empty_state
           [ {| injectPipeProps := VFunction (Fn_foreign 1); builderProps := 1%positive |};
             {| injectPipeProps := VFunction (Fn_foreign 1); builderProps := 2%positive |} ]
           {| heap := {[ 1%positive := {[ PString "coreFn" := coreFn_impl ]};
                         2%positive := {[ PString "coreFn" := extFn_impl;
                                          PString "extFn" := extFn_impl ]} ]};
              init_calls := [core; extension] |}
           [ {| injectPipeProps := VFunction (Fn_foreign 1); builderProps := 1%positive |} ]
           {| injectPipeProps := VFunction (Fn_foreign 1); builderProps := 2%positive |}
           []).
  - vm_compute. reflexivity.
  - repeat (apply Forall_cons; split; [by vm_compute|]). by apply Forall_nil.
  - reflexivity.
  - vm_compute. reflexivity.
  - constructor.
Defined.

(** ** C3: the order of the [init] calls and the shape of the merged record *)

Lemma map_union_list_snoc (Xs : list object) (X : object) :
  ⋃ (Xs ++ [X]) = ⋃ Xs ∪ X.
Proof.
  induction Xs as [|Y Xs IH]; cbn.
  - by rewrite (right_id_L ∅ (∪)), (left_id_L ∅ (∪)).
  - by rewrite IH, (assoc_L (∪)).
Qed.

(** The loop gives the later sources priority: its result is the union of
    the sources taken from the last to the first. *)
Lemma united_union_list tgt srcs :
  united tgt srcs = ⋃ (reverse srcs) ∪ tgt.
Proof.
  revert tgt. induction srcs as [|src srcs IH]; intros tgt.
  - cbn. by rewrite (left_id_L ∅ (∪)).
  - by rewrite united_cons, IH, reverse_cons, map_union_list_snoc, (assoc_L (∪)).
Qed.

(** C3, counterexample.  For the single module [working_core] the merged
    record (at location 2) has the operation name [coreFn] as its key and
    nothing under the module's name.  And when the first module's [init]
    throws, the [init] of the second is not entered at all. *)
Lemma merged_record_not_keyed_by_module_name :
  (Array_map call_init [working_core] empty_state).1
    = Return [ {| injectPipeProps := VFunction (Fn_foreign 1);
                  builderProps := 1%positive |} ] ∧
  (merge_builderProps [working_core] empty_state).1 = Return 2%positive ∧
  heap (merge_builderProps [working_core] empty_state).2 !! 2%positive
    = Some {[ PString "coreFn" := coreFn_impl ]} ∧
  ¬ keyed_by_module_name [working_core]
      [ {| injectPipeProps := VFunction (Fn_foreign 1); builderProps := 1%positive |} ]
      {[ PString "coreFn" := coreFn_impl ]} ∧
  init_calls (buildApi [coreModule; working_extension] empty_state).2
    = [core].
Proof.
  split; [by vm_compute|]. split; [by vm_compute|]. split; [by vm_compute|].
  split; [|by vm_compute].
  intros Hkeyed. specialize (Hkeyed 0 _ _ eq_refl eq_refl).
  vm_compute in Hkeyed. discriminate.
Qed.

(** C3, amended.  For modules none of which declares the name
    [__proto__]: [buildApi] enters the [init] of the modules in list
    order, each once, up to the first one that throws; the modules after
    that one are not initialised and the error is the result.  When none
    throws, every [init] has been entered once and the contributions are
    merged into one record keyed by property name, a later module's entry
    replacing an earlier one's. *)
Theorem buildApi_init_calls (modules : list Module) (σ : state) :
  (∀ rs σ1, Array_map call_init modules σ = (Return rs, σ1) →
            Forall no__proto__ (contributions (heap σ1) rs)) →
  match buildApi modules σ with
  | (Return _, σ') =>
      init_calls σ' = init_calls σ ++ (name <$> modules) ∧
      ∃ rs σ1 target σ2,
        Array_map call_init modules σ = (Return rs, σ1) ∧
        length rs = length modules ∧
        merge_builderProps modules σ = (Return target, σ2) ∧
        heap σ' !! target = Some (⋃ (reverse (contributions (heap σ1) rs)))
  | (Throw e, σ') =>
      ∃ pre m post rs σm,
        modules = pre ++ m :: post ∧
        Array_map call_init pre σ = (Return rs, σm) ∧
        init m (heap σm) = (Throw e, heap σ') ∧
        init_calls σ' = init_calls σ ++ (name <$> pre) ++ [name m]
  end.
Proof.
  intros Hplain.
  destruct (Array_map call_init modules σ) as [[rs|e] σ1] eqn:Hinit.
  - destruct (buildApi_Return _ _ _ _ Hinit) as (Hmerge & -> & _ & _ & Hne).
    destruct (init_phase_Return _ _ _ _ Hinit) as [Hcalls Hlen].
    specialize (Hplain rs σ1 eq_refl).
    cbn [init_calls heap]. split; [done|].
    eexists rs, σ1, _, _. split; [done|]. split; [done|]. split; [exact Hmerge|].
    rewrite lookup_insert_ne by done. rewrite lookup_insert_eq. f_equal.
    fold (contributions (heap σ1) rs). rewrite assigned_plain by done.
    by rewrite united_union_list, (right_id_L ∅ (∪)).
  - destruct (buildApi_Throw _ _ _ _ Hinit) as [_ ->].
    destruct (init_phase_Throw _ _ _ _ Hinit)
      as (pre & m & post & rs & σm & Hmods & Hpre & Hm & Hcalls).
    by exists pre, m, post, rs, σm.
Qed.

(** C3, witness: the two working modules, from the empty heap. *)
Lemma buildApi_init_calls_witness :
  init_calls (buildApi [working_core; working_extension] empty_state).2
  = init_calls empty_state ++ (name <$> [working_core; working_extension]).
Proof.
  assert (∀ rs σ1,
            Array_map call_init [working_core; working_extension] empty_state
            = (Return rs, σ1) →
            Forall no__proto__ (contributions (heap σ1) rs)) as Hplain.
  { intros rs σ1 Hinit. vm_compute in Hinit. injection Hinit as <- <-.
    repeat (apply Forall_cons; split; [by vm_compute|]). by apply Forall_nil. }
  pose proof (buildApi_init_calls [working_core; working_extension] empty_state
                Hplain) as Hcalls.
  destruct (buildApi [working_core; working_extension] empty_state)
    as [[v|e] σ'] eqn:Hbuild.
  - exact (proj1 Hcalls).
  - vm_compute in Hbuild. discriminate.
Defined.

(** ** The static layer *)

Lemma Spread_lookup (TType TWith : Static.ObjectType) k :
  Static.Spread TType TWith !! k =
  match TWith !! k with
  | Some x => Some x
  | None => TType !! k
  end.
Proof.
  unfold Static.Spread. rewrite lookup_merge.
  by destruct (TType !! k), (TWith !! k).
Qed.

Lemma dom_Spread (TType TWith : Static.ObjectType) :
  dom (Static.Spread TType TWith) = dom TType ∪ dom TWith.
Proof.
  apply set_eq. intros k. rewrite elem_of_union, !elem_of_dom, Spread_lookup.
  destruct (TWith !! k) as [x|]; split; intros H.
  - right. by exists x.
  - by exists x.
  - by left.
  - destruct H as [H | [? ?]]; done.
Qed.

(** The options that [createBuilder] hands to [Builder] name exactly the
    modules of the list, whatever the type argument says. *)
Lemma createBuilder_options_module N (TOptions : Static.ObjectType) :
  Static.createBuilder_options N TOptions !! "$module" = Some (Static.TNames N).
Proof.
  unfold Static.createBuilder_options.
  by rewrite Spread_lookup, lookup_singleton_eq.
Qed.

(** In these options the type argument overrides the three base fields,
    and [$module] overrides the type argument. *)
Lemma createBuilder_options_lookup N (TOptions : Static.ObjectType) k :
  k ≠ "$module" →
  Static.createBuilder_options N TOptions !! k =
  match TOptions !! k with
  | Some t => Some t
  | None =>
      ({[ "ctx" := Static.Tobject; "meta" := Static.Tobject;
          "ctx_overrides" := Static.Tobject ]} : Static.ObjectType) !! k
  end.
Proof.
  intros Hk. unfold Static.createBuilder_options.
  by rewrite Spread_lookup, lookup_singleton_ne, Spread_lookup.
Qed.

Lemma MiddlewareModules_core (O : Static.ObjectType) :
  Static.builderProps <$> Static.MiddlewareModules O !! core
  = Some (Static.CoreModuleBuilder O).
Proof. unfold Static.MiddlewareModules. by rewrite lookup_insert_eq. Qed.

Lemma MiddlewareModules_extension (O : Static.ObjectType) :
  Static.builderProps <$> Static.MiddlewareModules O !! extension
  = Some (Static.ExtensionModuleBuilder O).
Proof.
  unfold Static.MiddlewareModules.
  by rewrite lookup_insert_ne, lookup_singleton_eq.
Qed.

Lemma Builder_core (O : Static.ObjectType) :
  O !! "$module" = Some (Static.TNames (Name [coreModule])) →
  Static.Builder O = Static.CoreModuleBuilder O.
Proof.
  intros HO. unfold Static.Builder. rewrite HO.
  replace (elements (Name [coreModule])) with [core]
    by (vm_compute; reflexivity).
  cbn [omap list_omap]. rewrite MiddlewareModules_core. cbn.
  by rewrite (right_id_L ∅ (∪)).
Qed.

Lemma Builder_core_extension (O : Static.ObjectType) :
  O !! "$module" = Some (Static.TNames (Name [coreModule; extensionModule])) →
  Static.Builder O = Static.CoreModuleBuilder O ∪ Static.ExtensionModuleBuilder O.
Proof.
  intros HO. unfold Static.Builder. rewrite HO.
  replace (elements (Name [coreModule; extensionModule]))
    with [core; extension] by (vm_compute; reflexivity).
  cbn [omap list_omap].
  rewrite MiddlewareModules_core, MiddlewareModules_extension. cbn.
  by rewrite (right_id_L ∅ (∪)).
Qed.

Lemma dom_map_union_list (Xs : list (gmap string Static.ObjectType)) :
  dom (⋃ Xs) = ⋃ (dom <$> Xs).
Proof.
  induction Xs as [|X Xs IH]; cbn; [apply dom_empty_L|].
  by rewrite dom_union_L, IH.
Qed.

(** The builder type offers a method exactly when the interface of one of
    the modules named by [$module] declares it. *)
Lemma Builder_exposes (O : Static.ObjectType) N f :
  O !! "$module" = Some (Static.TNames N) →
  f ∈ dom (Static.Builder O) ↔
  ∃ n d, n ∈ N ∧ Static.MiddlewareModules O !! n = Some d ∧
         f ∈ dom (Static.builderProps d).
Proof.
  intros HO. unfold Static.Builder. rewrite HO, dom_map_union_list.
  rewrite elem_of_union_list. split.
  - intros (X & HX & Hf). apply list_elem_of_fmap in HX as (B & -> & HB).
    apply list_elem_of_omap in HB as (n & Hn & HB).
    destruct (Static.MiddlewareModules O !! n) as [d|] eqn:Hd; [|done].
    injection HB as <-. exists n, d. by rewrite <- elem_of_elements.
  - intros (n & d & Hn & Hd & Hf). exists (dom (Static.builderProps d)).
    split; [|done]. apply list_elem_of_fmap. exists (Static.builderProps d).
    split; [done|]. apply list_elem_of_omap. exists n.
    rewrite elem_of_elements. by rewrite Hd.
Qed.

(** A module contributes to the configuration through [Spread]: the
    builder that [coreFn] returns has the options of the receiver with the
    field added by the core module written over them. *)
Lemma coreFn_spreads_over_options (O : Static.ObjectType) :
  ∃ O', Static.CoreModuleBuilder O !! "coreFn" = Some O' ∧
        O' !! "_________ADDED_FROM_CORE_________" = Some (Static.TLiteral "bar") ∧
        ∀ k, k ≠ "_________ADDED_FROM_CORE_________" → O' !! k = O !! k.
Proof.
  eexists. split; [apply lookup_singleton_eq|]. split.
  - by rewrite Spread_lookup, lookup_singleton_eq.
  - intros k Hk. by rewrite Spread_lookup, lookup_singleton_ne.
Qed.

(** With both modules installed every chain of [coreFn] and [extFn] calls
    type-checks: a call never loses a method. *)
Lemma check_calls_core_extension calls : ∀ O : Static.ObjectType,
  O !! "$module" = Some (Static.TNames (Name [coreModule; extensionModule])) →
  Forall (λ f, f = "coreFn" ∨ f = "extFn") calls →
  is_Some (Static.check_calls O calls).
Proof.
  induction calls as [|f calls IH]; intros O HO Hcalls; [by eexists|].
  apply Forall_cons in Hcalls as [Hf Hcalls].
  cbn [Static.check_calls]. rewrite (Builder_core_extension O HO).
  unfold Static.CoreModuleBuilder, Static.ExtensionModuleBuilder.
  destruct Hf as [-> | ->].
  - erewrite lookup_union_Some_l by apply lookup_singleton_eq.
    apply IH; [|done]. by rewrite Spread_lookup, lookup_singleton_ne.
  - rewrite lookup_union_r by by rewrite lookup_singleton_ne.
    rewrite lookup_singleton_eq. by apply IH.
Qed.

(** ** C4: core alone, and core with extension *)

(** C4, counterexample.  The first block of the file (lines 157 to 172),
    run in the empty heap: it ends with [Error('Not implemented')], thrown
    by [coreModule]'s [init] inside [buildApi].  No object has been
    allocated, so there is no builder on which [coreFn] or [extFn] could
    be invoked, and the error is no [UnsupportedCapabilityError].  The
    third block (core and extension) ends the same way. *)
Lemma core_only_throws_not_implemented :
  core_only (λ _, mret VUndefined) (λ _ _, mret VUndefined) empty_state
    = (Throw {| error_name := "Error"; error_message := "Not implemented" |},
       {| heap := ∅; init_calls := [core] |}) ∧
  core_and_extension (λ _, mret VUndefined) (λ _ _, mret VUndefined) empty_state
    = (Throw {| error_name := "Error"; error_message := "Not implemented" |},
       {| heap := ∅; init_calls := [core] |}) ∧
  "Error" ≠ "UnsupportedCapabilityError".
Proof. split; [by vm_compute|]. split; [by vm_compute|]. discriminate. Qed.

(** C4, amended.  The distinction is made by the type checker.  For every
    type argument, the builder type computed for the list with the core
    module alone has the method [coreFn] and no other, so that a call of
    [extFn] on it is a compile error; the builder type computed for core
    and extension has [coreFn] and [extFn], and the chain
    [coreFn().extFn().coreFn()] type-checks.  At run time the block ends
    in [buildApi] with [Error('Not implemented')], before any builder
    exists. *)
Theorem core_alone_and_core_with_extension :
  (∀ TOptions : Static.ObjectType,
     let O := Static.createBuilder_options (Name [coreModule]) TOptions in
     dom (Static.Builder O) = {[ "coreFn" ]} ∧
     is_Some (Static.check_calls O ["coreFn"]) ∧
     Static.check_calls O ["extFn"] = None) ∧
  (∀ TOptions : Static.ObjectType,
     let O := Static.createBuilder_options
                (Name [coreModule; extensionModule]) TOptions in
     dom (Static.Builder O) = {[ "coreFn"; "extFn" ]} ∧
     is_Some (Static.check_calls O ["coreFn"]) ∧
     is_Some (Static.check_calls O ["extFn"]) ∧
     is_Some (Static.check_calls O ["coreFn"; "extFn"; "coreFn"])) ∧
  (∀ foreign builtin σ,
     core_only foreign builtin σ
       = (Throw (new_Error "Not implemented"),
          {| heap := heap σ; init_calls := init_calls σ ++ [core] |})).
Proof.
  split; [|split].
  - intros TOptions O.
    pose proof (createBuilder_options_module (Name [coreModule]) TOptions) as HO.
    fold O in HO. cbn [Static.check_calls].
    rewrite (Builder_core O HO). unfold Static.CoreModuleBuilder.
    split; [apply dom_singleton_L|].
    rewrite lookup_singleton_eq, lookup_singleton_ne by done. by split; [eexists|].
  - intros TOptions O.
    pose proof (createBuilder_options_module
                  (Name [coreModule; extensionModule]) TOptions) as HO.
    fold O in HO. split.
    + rewrite (Builder_core_extension O HO), dom_union_L.
      unfold Static.CoreModuleBuilder, Static.ExtensionModuleBuilder.
      by rewrite !dom_singleton_L.
    + repeat split; apply check_calls_core_extension; try done;
        repeat (apply Forall_cons; split; [auto|]); by apply Forall_nil.
  - intros foreign builtin σ. unfold core_only. rewrite bind_run.
    assert (buildApi [coreModule] σ
            = (Throw (new_Error "Not implemented"),
               {| heap := heap σ; init_calls := init_calls σ ++ [core] |}))
      as ->; [|done].
    apply buildApi_Throw. by rewrite Array_map_cons, call_init_run.
Qed.

(** The symmetric case, the second block of the file (lines 173 to 185):
    the builder type for the extension module alone has [extFn] only, and
    the block ends in [buildApi] as the first one does. *)
Lemma extension_alone :
  (∀ TOptions : Static.ObjectType,
     let O := Static.createBuilder_options (Name [extensionModule]) TOptions in
     dom (Static.Builder O) = {[ "extFn" ]} ∧
     is_Some (Static.check_calls O ["extFn"]) ∧
     Static.check_calls O ["coreFn"] = None) ∧
  (∀ foreign builtin σ,
     extension_only foreign builtin σ
       = (Throw (new_Error "Not implemented"),
          {| heap := heap σ; init_calls := init_calls σ ++ [extension] |})).
Proof.
  split.
  - intros TOptions O.
    pose proof (createBuilder_options_module (Name [extensionModule]) TOptions)
      as HO.
    fold O in HO.
    assert (Static.Builder O = Static.ExtensionModuleBuilder O) as HB.
    { unfold Static.Builder. rewrite HO.
      replace (elements (Name [extensionModule])) with [extension]
        by (vm_compute; reflexivity).
      cbn [omap list_omap]. rewrite MiddlewareModules_extension. cbn.
      by rewrite (right_id_L ∅ (∪)). }
    cbn [Static.check_calls]. rewrite HB. unfold Static.ExtensionModuleBuilder.
    split; [apply dom_singleton_L|].
    rewrite lookup_singleton_eq, lookup_singleton_ne by done. by split; [eexists|].
  - intros foreign builtin σ. unfold extension_only. rewrite bind_run.
    assert (buildApi [extensionModule] σ
            = (Throw (new_Error "Not implemented"),
               {| heap := heap σ; init_calls := init_calls σ ++ [extension] |}))
      as ->; [|done].
    apply buildApi_Throw. by rewrite Array_map_cons, call_init_run.
Qed.

(** ** C5: the empty list *)

(** C5, counterexample.  Applied to no module at all, the body of
    [buildApi] throws nothing: it returns the object with
    [createBuilder], after merging nothing into an empty record. *)
Lemma buildApi_nil_returns :
  buildApi [] empty_state
  = (Return (VObject 2%positive),
     {| heap := {[ 1%positive := ∅;
                   2%positive := {[ PString "createBuilder"
                                    := VFunction Fn_createBuilder ]} ]};
        init_calls := [] |}).
Proof. by vm_compute. Qed.

(** C5, amended.  The empty list is excluded by the parameter type of
    [buildApi], a tuple type with at least one element, and by nothing
    else: the body has no check, and on the empty list it would return the
    object with [createBuilder] without entering any [init]. *)
Theorem buildApi_empty_list :
  Static.TModules (@nil Module) = false ∧
  (∀ (m : Module) ms, Static.TModules (m :: ms) = true) ∧
  ∀ σ, ∃ api σ',
    buildApi [] σ = (Return (VObject api), σ') ∧
    heap σ' !! api = Some api_object ∧
    init_calls σ' = init_calls σ.
Proof.
  split; [done|]. split; [done|]. intros σ.
  destruct (buildApi_Return [] σ [] σ eq_refl) as (_ & Hbuild & _).
  eexists _, _. split; [exact Hbuild|]. cbn [heap init_calls].
  by rewrite lookup_insert_eq.
Qed.

(** ** C6: [createBuilder] throws *)

(** C6. On the object that [buildApi] has returned, a call of
    [createBuilder] throws [Error('Not implemented')], for every type
    argument and in every later state in which the object still is as
    [buildApi] made it. *)
Theorem createBuilder_throws foreign builtin (modules : list Module) σ v σ' :
  buildApi modules σ = (Return v, σ') →
  ∃ api,
    v = VObject api ∧
    heap σ' !! api = Some api_object ∧
    ∀ (TOptions : Static.ObjectType) σ'',
      heap σ'' !! api = Some api_object →
      invoke foreign builtin v (PString "createBuilder") TOptions σ''
      = (Throw (new_Error "Not implemented"), σ'').
Proof.
  intros Hbuild.
  destruct (buildApi_Return_inv _ _ _ _ Hbuild) as (rs & σ1 & Hinit).
  destruct (buildApi_Return _ _ _ _ Hinit) as (_ & Hbuild' & _).
  rewrite Hbuild' in Hbuild. injection Hbuild as <- <-.
  eexists. split; [done|]. cbn [heap]. split; [apply lookup_insert_eq|].
  intros TOptions σ'' Hapi. unfold invoke, Get. rewrite bind_run, Hapi.
  done.
Qed.

(** C6, witness: the object returned for [working_core]. *)
Lemma createBuilder_throws_witness :
  ∃ api,
    VObject 3%positive = VObject api ∧
    ∀ (TOptions : Static.ObjectType) σ'',
      heap σ'' !! api = Some api_object →
      invoke (λ _, mret VUndefined) (λ _ _, mret VUndefined) (VObject 3%positive)
        (PString "createBuilder") TOptions σ''
      = (Throw (new_Error "Not implemented"), σ'').
Proof.
  destruct (createBuilder_throws (λ _, mret VUndefined) (λ _ _, mret VUndefined)
              [working_core] empty_state
              (VObject 3%positive)
              {| heap := {[ 1%positive := {[ PString "coreFn" := coreFn_impl ]};
                            2%positive := {[ PString "coreFn" := coreFn_impl ]};
                            3%positive := api_object ]};
                 init_calls := [core] |})
    as (api & Hv & _ & Hcall).
  - vm_compute. reflexivity.
  - exists api. by split.
Defined.

(** ** C7: the configuration and the modules *)

(** C7, counterexample.  The modules [first] and [second], registered in
    that order, both contribute the field [x] in their options.  The
    configuration that [createBuilder] computes for them, with a type
    argument that has no [x], has no field [x] at all: not the
    contribution of [second].  It is the same for the
    file's own modules: [CoreModuleOptions] has the field [core], the
    configuration computed for the core module has not. *)
Lemma configuration_without_pipeProps :
  Static.pipeProps <$> MiddlewareModules_with_first_and_second ∅ !! name firstModule
    = Some FirstModuleOptions ∧
  Static.pipeProps <$> MiddlewareModules_with_first_and_second ∅ !! name secondModule
    = Some SecondModuleOptions ∧
  FirstModuleOptions !! "x" = Some (Static.TLiteral "one") ∧
  SecondModuleOptions !! "x" = Some (Static.TLiteral "two") ∧
  Static.createBuilder_options (Name [firstModule; secondModule]) ∅ !! "x" = None ∧
  Static.pipeProps <$> Static.MiddlewareModules ∅ !! name coreModule
    = Some Static.CoreModuleOptions ∧
  Static.CoreModuleOptions !! "core" = Some Static.TTrue ∧
  Static.createBuilder_options (Name [coreModule]) ∅ !! "core" = None.
Proof. repeat split; by vm_compute. Qed.

(** C7, amended.  The configuration that [createBuilder] computes is the
    nest [Spread<Spread<base, TOptions>, { $module: $Name }>] of lines 76
    to 88, merged from left to right with the last writer of a field
    winning: a field of the type argument replaces the one of the base
    shape, and [$module] is the union of the names of the modules whatever
    the type argument says.  What the modules contribute to the
    configuration is not part of the merge: every field but [$module] is
    the same for any other list of modules, and the order in which the
    modules are registered changes nothing. *)
Theorem configuration_last_write_wins (modules : list Module)
    (TOptions : Static.ObjectType) :
  let O := Static.createBuilder_options (Name modules) TOptions in
  let base : Static.ObjectType :=
    {[ "ctx" := Static.Tobject; "meta" := Static.Tobject;
       "ctx_overrides" := Static.Tobject ]} in
  (∀ x t, x ≠ "$module" → TOptions !! x = Some t → O !! x = Some t) ∧
  (∀ x, x ≠ "$module" → TOptions !! x = None → O !! x = base !! x) ∧
  O !! "$module" = Some (Static.TNames (Name modules)) ∧
  (∀ (modules' : list Module) x, x ≠ "$module" →
     Static.createBuilder_options (Name modules') TOptions !! x = O !! x) ∧
  (∀ modules' : list Module, modules ≡ₚ modules' →
     Static.createBuilder_options (Name modules') TOptions = O).
Proof.
  intros O base. unfold O, base. split; [|split; [|split; [|split]]].
  - intros x t Hx Ht. by rewrite createBuilder_options_lookup, Ht.
  - intros x Hx Ht. by rewrite createBuilder_options_lookup, Ht.
  - apply createBuilder_options_module.
  - intros modules' x Hx. by rewrite !createBuilder_options_lookup.
  - intros modules' Hperm. unfold Name. by rewrite Hperm.
Qed.

(** ** C8: two runs on the same list *)




Lemma shared_module_behaves base n l props :
  base !! l = Some props →
  behaves base (shared_module n l) (Contributes props).
Proof.
  intros Hl h Hsub. eexists _, _. split; [done|]. split; [done|].
  cbn [builderProps]. by apply (lookup_weaken base).
Qed.


(** ** C9: what the returned object holds *)

Lemma api_object_lookup k v :
  api_object !! k = Some v →
  k = PString "createBuilder" ∧ v = VFunction Fn_createBuilder.
Proof. unfold api_object. by intros [<- <-]%lookup_singleton_Some. Qed.

(** What is inherited from [Object.prototype] is a function of the engine
    or a built-in object. *)
Lemma Object_prototype_values k v :
  Object_prototype !! k = Some v → is_reference v = false ∧ is_foreign v = false.
Proof.
  assert (map_Forall (λ _ v, is_reference v = false ∧ is_foreign v = false)
            Object_prototype) as Hall
    by (refine (bool_decide_unpack _ _); vm_compute; exact I).
  apply Hall.
Qed.

(** A read on an object whose only property is [createBuilder] gives that
    function, something inherited from [Object.prototype], or
    [undefined]. *)
Lemma get_property_api_object k :
  is_reference (get_property api_object k) = false ∧
  is_foreign (get_property api_object k) = false.
Proof.
  unfold get_property. destruct (api_object !! k) as [v|] eqn:Hk.
  - by apply api_object_lookup in Hk as [_ ->].
  - destruct (Object_prototype !! k) as [v|] eqn:Hp; [|done].
    by apply Object_prototype_values in Hp.
Qed.

(** From an object whose only property is [createBuilder], property reads
    lead nowhere else. *)
Lemma reachable_api_object h api l :
  h !! api = Some api_object →
  reachable h (VObject api) l → l = api.
Proof.
  intros Hapi Hreach. inversion Hreach as [|? o k ? Ho Hv]; subst; [done|].
  rewrite Hapi in Ho. injection Ho as <-.
  destruct (get_property_api_object k) as [Href _].
  inversion Hv as [l0 Heq | l0 ? ? ? ? ? Heq]; by rewrite <- Heq in Href.
Qed.

(** C9. The value that [buildApi] returns is an object whose only
    property is [createBuilder].  The merged [builderProps] record is
    another object, which no chain of property reads from the returned
    value reaches.  A read of any key on the returned value gives the
    function [createBuilder], something that every object inherits from
    [Object.prototype], or [undefined], never a function of a module and
    never a reference to an object; a call through a key that the object
    neither has nor inherits throws; and whatever the key, the call runs
    no function of a module: it ends the same whatever those functions
    do. *)
Theorem buildApi_returns_only_createBuilder foreign builtin
    (modules : list Module) σ v σ' :
  buildApi modules σ = (Return v, σ') →
  ∃ api target σ2,
    v = VObject api ∧
    heap σ' !! api = Some api_object ∧
    dom api_object = {[ PString "createBuilder" ]} ∧
    merge_builderProps modules σ = (Return target, σ2) ∧
    target ≠ api ∧
    heap σ' !! target = heap σ2 !! target ∧
    is_Some (heap σ' !! target) ∧
    (∀ l, reachable (heap σ') v l → l = api) ∧
    ¬ reachable (heap σ') v target ∧
    (∀ k, Get v k σ' = (Return (get_property api_object k), σ') ∧
          is_foreign (get_property api_object k) = false ∧
          is_reference (get_property api_object k) = false) ∧
    (∀ k TArg, k ∉ dom Object_prototype →
       ∃ e, invoke foreign builtin v k TArg σ' = (Throw e, σ')) ∧
    (∀ foreign' k TArg,
       invoke foreign' builtin v k TArg σ' = invoke foreign builtin v k TArg σ').
Proof.
  intros Hbuild.
  destruct (buildApi_Return_inv _ _ _ _ Hbuild) as (rs & σ1 & Hinit).
  destruct (buildApi_Return _ _ _ _ Hinit)
    as (Hmerge & Hbuild' & Htarget & Hapi & Hne).
  rewrite Hbuild' in Hbuild. injection Hbuild as <- <-.
  set (target := fresh (dom (heap σ1))) in *.
  set (h2 := <[target := _]> (heap σ1)) in *.
  set (api := fresh (dom h2)) in *.
  assert (<[api := api_object]> h2 !! api = Some api_object) as Hlook
    by apply lookup_insert_eq.
  exists api, target, {| heap := h2; init_calls := init_calls σ1 |}. cbn [heap].
  split; [done|]. split; [done|]. split; [apply dom_singleton_L|].
  split; [exact Hmerge|]. split; [done|]. cbn [heap].
  split; [by rewrite lookup_insert_ne|].
  split; [|split; [|split; [|split; [|split]]]].
  - rewrite lookup_insert_ne by done. unfold h2. rewrite lookup_insert_eq.
    by eexists.
  - intros l. by apply reachable_api_object.
  - intros Hreach. by apply (reachable_api_object _ _ _ Hlook) in Hreach.
  - intros k. destruct (get_property_api_object k) as [Href Hfor].
    split; [|done]. unfold Get. cbn [heap]. by rewrite Hlook.
  - intros k TArg Hk. apply not_elem_of_dom in Hk.
    unfold invoke, Get. rewrite bind_run. cbn [heap]. rewrite Hlook.
    unfold get_property, api_object.
    destruct (decide (k = PString "createBuilder")) as [-> | Hcb].
    + rewrite lookup_singleton_eq. by eexists.
    + rewrite lookup_singleton_ne, Hk by done. by eexists.
  - intros foreign' k TArg. unfold invoke, Get. rewrite !bind_run. cbn [heap].
    rewrite Hlook. destruct (get_property_api_object k) as [_ Hfor].
    by destruct (get_property api_object k) as [| | | | | |[]|].
Qed.

(** C9, witness: the two working modules, from the empty heap. *)
Lemma buildApi_returns_only_createBuilder_witness :
  ∃ api target σ2,
    VObject 4%positive = VObject api ∧
    merge_builderProps [working_core; working_extension] empty_state
      = (Return target, σ2) ∧
    target ≠ api ∧
    ¬ reachable (heap (buildApi [working_core; working_extension] empty_state).2)
        (VObject 4%positive) target.
Proof.
  destruct (buildApi_returns_only_createBuilder (λ _, mret VUndefined)
              (λ _ _, mret VUndefined)
              [working_core; working_extension] empty_state
              (VObject 4%positive)
              (buildApi [working_core; working_extension] empty_state).2)
    as (api & target & σ2 & Hv & _ & _ & Hmerge & Hne & _ & _ & _ & Hreach & _).
  - vm_compute. reflexivity.
  - by exists api, target, σ2.
Defined.

(** ** C10: the two modules of the file *)

(** [buildApi] ends with the error of the first [init] that throws. *)
Lemma buildApi_first_throw (modules : list Module) σ pre m post rs σ1 e h :
  modules = pre ++ m :: post →
  Array_map call_init pre σ = (Return rs, σ1) →
  init m (heap σ1) = (Throw e, h) →
  Array_map call_init modules σ
  = (Throw e, {| heap := h; init_calls := init_calls σ ++ (name <$> pre) ++ [name m] |}).
Proof.
  intros -> Hpre Hm.
  destruct (init_phase_Return _ _ _ _ Hpre) as [Hcalls _].
  rewrite Array_map_app, Hpre, Array_map_cons, call_init_run, Hm, Hcalls.
  cbn [fst snd]. by rewrite <- app_assoc.
Qed.

(** A list that contains a module whose [init] always throws cannot be
    initialised to the end. *)
Lemma init_phase_never_returns (modules : list Module) m σ :
  m ∈ modules →
  (∀ h, ∃ e, init m h = (Throw e, h)) →
  ∃ e σ', Array_map call_init modules σ = (Throw e, σ').
Proof.
  intros (pre & post & ->)%list_elem_of_split Hm.
  rewrite Array_map_app.
  destruct (Array_map call_init pre σ) as [[rs|e] σ1]; [|by eauto].
  rewrite Array_map_cons, call_init_run.
  destruct (Hm (heap σ1)) as [e ->]. cbn [fst snd]. by eauto.
Qed.

(** C10, counterexample.  A list that contains [coreModule], after a
    module whose [init] throws [Error('boom')]: the call of [buildApi] ends
    with that error and not with [Error('Not implemented')]; the [init] of
    [coreModule] is not entered. *)
Lemma earlier_error_ends_registration :
  coreModule ∈ [failing_module first (new_Error "boom"); coreModule] ∧
  buildApi [failing_module first (new_Error "boom"); coreModule] empty_state
    = (Throw (new_Error "boom"), {| heap := ∅; init_calls := [first] |}) ∧
  new_Error "boom" ≠ new_Error "Not implemented".
Proof.
  split; [apply list_elem_of_further, list_elem_of_here|].
  split; [by vm_compute | discriminate].
Qed.

(** C10, amended.  A call of [buildApi] on a list that contains
    [coreModule] or [extensionModule] never completes registration: it
    ends with an error, and so does the merge, so that no merged record
    and no returned object are formed.  The error is the one of the first
    [init] that throws.  It is [Error('Not implemented')], thrown by the
    [init] of the file's module, once the modules listed before that one
    have been initialised; with nothing listed before it, as in the three
    calls of the file, the heap is left untouched. *)
Theorem buildApi_file_modules_throw (modules : list Module) σ :
  coreModule ∈ modules ∨ extensionModule ∈ modules →
  (∃ e σ' pre m post rs σm,
     buildApi modules σ = (Throw e, σ') ∧
     merge_builderProps modules σ = (Throw e, σ') ∧
     modules = pre ++ m :: post ∧
     Array_map call_init pre σ = (Return rs, σm) ∧
     init m (heap σm) = (Throw e, heap σ')) ∧
  ∀ pre m post rs σ1,
    modules = pre ++ m :: post →
    m = coreModule ∨ m = extensionModule →
    Array_map call_init pre σ = (Return rs, σ1) →
    buildApi modules σ
    = (Throw (new_Error "Not implemented"),
       {| heap := heap σ1;
          init_calls := init_calls σ ++ (name <$> pre) ++ [name m] |}).
Proof.
  intros Hin. split.
  - assert (∃ e σ', Array_map call_init modules σ = (Throw e, σ'))
      as (e & σ' & Hinit).
    { destruct Hin as [Hin | Hin];
        apply (init_phase_never_returns _ _ _ Hin); intros h; by eexists. }
    destruct (init_phase_Throw _ _ _ _ Hinit)
      as (pre & m & post & rs & σm & Hmods & Hpre & Hm & _).
    exists e, σ', pre, m, post, rs, σm.
    by destruct (buildApi_Throw _ _ _ _ Hinit).
  - intros pre m post rs σ1 Hmods Hm Hpre.
    apply buildApi_Throw.
    apply (buildApi_first_throw _ _ _ _ _ _ _ _ _ Hmods Hpre).
    by destruct Hm as [-> | ->].
Qed.

(** C10, witness: the third call of the file. *)
Lemma buildApi_file_modules_throw_witness :
  buildApi [coreModule; extensionModule] empty_state
  = (Throw (new_Error "Not implemented"),
     {| heap := ∅; init_calls := [core] |}).
Proof.
  destruct (buildApi_file_modules_throw [coreModule; extensionModule] empty_state)
    as [_ Hthrow].
  - left. left.
  - apply (Hthrow [] coreModule [extensionModule] [] empty_state).
    + reflexivity.
    + left. reflexivity.
    + reflexivity.
Defined.

(** * Further properties of [modules.test.ts] *)

(** ** [Spread] as an operation *)

(** X1. [Spread] is associative, [{}] is neutral for it on both sides, and
    spreading the same record twice is spreading it once; so a nest of
    [Spread]s can be read without its parentheses, as the list of its
    operands from left to right.  It is not commutative: the operands'
    order decides who wins. *)
Theorem Spread_laws :
  (∀ A B C : Static.ObjectType,
     Static.Spread (Static.Spread A B) C = Static.Spread A (Static.Spread B C)) ∧
  (∀ A : Static.ObjectType, Static.Spread A ∅ = A ∧ Static.Spread ∅ A = A) ∧
  (∀ A W : Static.ObjectType,
     Static.Spread (Static.Spread A W) W = Static.Spread A W) ∧
  (∃ A B : Static.ObjectType, Static.Spread A B ≠ Static.Spread B A).
Proof.
  split; [|split; [|split]].
  - intros A B C. apply map_eq. intros k. rewrite !Spread_lookup.
    by destruct (C !! k), (B !! k).
  - intros A. split; apply map_eq; intros k; rewrite Spread_lookup, lookup_empty.
    + done.
    + by destruct (A !! k).
  - intros A W. apply map_eq. intros k. rewrite !Spread_lookup.
    by destruct (W !! k).
  - exists {[ "x" := Static.TTrue ]}, {[ "x" := Static.TAny ]}. intros Heq.
    assert (Static.Spread {[ "x" := Static.TTrue ]} {[ "x" := Static.TAny ]} !! "x"
            = Static.Spread {[ "x" := Static.TAny ]} {[ "x" := Static.TTrue ]} !! "x")
      as Hx by (by rewrite Heq).
    rewrite !Spread_lookup, !lookup_singleton_eq in Hx. discriminate.
Qed.

(** ** The options of [createBuilder] *)

(** X3. Whatever the type argument of [createBuilder], the options that
    it hands to [Builder] have the three base fields and [$module]; the
    type argument decides the base fields that it mentions, the others
    are [object]; and [$module] is the union of the names of the modules
    given to [buildApi], which a [$module] in the type argument cannot
    change. *)
Theorem createBuilder_options_fields (modules : list Module)
    (TOptions : Static.ObjectType) :
  let O := Static.createBuilder_options (Name modules) TOptions in
  dom O = {[ "ctx"; "meta"; "ctx_overrides"; "$module" ]} ∪ dom TOptions ∧
  O !! "$module" = Some (Static.TNames (Name modules)) ∧
  (∀ k, k ∈ ({[ "ctx"; "meta"; "ctx_overrides" ]} : gset string) →
        O !! k = Some (default Static.Tobject (TOptions !! k))) ∧
  (∀ k, k ≠ "$module" → k ∈ dom TOptions → O !! k = TOptions !! k).
Proof.
  intros O. unfold O. split; [|split; [|split]].
  - unfold Static.createBuilder_options. rewrite !dom_Spread.
    rewrite !dom_insert_L, !dom_singleton_L.
    apply set_eq. intros k. rewrite !elem_of_union, !elem_of_singleton.
    tauto.
  - apply createBuilder_options_module.
  - intros k Hk.
    assert (k ≠ "$module") as Hne.
    { intros ->. rewrite !elem_of_union, !elem_of_singleton in Hk.
      by destruct Hk as [[? | ?] | ?]. }
    rewrite createBuilder_options_lookup by done.
    destruct (TOptions !! k) as [t|]; [done|]. cbn [default].
    rewrite !elem_of_union, !elem_of_singleton in Hk.
    by destruct Hk as [[-> | ->] | ->].
  - intros k Hne [t Ht]%elem_of_dom.
    by rewrite createBuilder_options_lookup, Ht.
Qed.

(** ** The methods of a builder type *)

Lemma union_list_lookup_agree (Xs : list Static.BuilderType) X f O :
  X ∈ Xs → X !! f = Some O →
  (∀ X' O', X' ∈ Xs → X' !! f = Some O' → O' = O) →
  (⋃ Xs) !! f = Some O.
Proof.
  intros HX Hf Hagree.
  destruct ((⋃ Xs) !! f) as [O'|] eqn:Hu.
  - apply lookup_union_list_Some_1 in Hu as (X' & HX' & Hf').
    f_equal. by apply (Hagree X').
  - apply lookup_union_list_None_1 in Hu.
    rewrite Forall_forall in Hu. specialize (Hu X HX). congruence.
Qed.

(** The interfaces that [Builder] intersects, for the names [N]. *)
Lemma Builder_members (O : Static.ObjectType) (N : gset symbol) X :
  X ∈ omap (λ n, Static.builderProps <$> Static.MiddlewareModules O !! n)
         (elements N) ↔
  (core ∈ N ∧ X = Static.CoreModuleBuilder O) ∨
  (extension ∈ N ∧ X = Static.ExtensionModuleBuilder O).
Proof.
  rewrite list_elem_of_omap. split.
  - intros (n & Hn%elem_of_elements & HX).
    destruct (decide (n = core)) as [-> | Hcore].
    { rewrite MiddlewareModules_core in HX. injection HX as <-. by left. }
    destruct (decide (n = extension)) as [-> | Hext].
    { rewrite MiddlewareModules_extension in HX. injection HX as <-. by right. }
    unfold Static.MiddlewareModules in HX.
    by rewrite lookup_insert_ne, lookup_singleton_ne in HX.
  - intros [[Hn ->] | [Hn ->]].
    + exists core. by rewrite elem_of_elements, MiddlewareModules_core.
    + exists extension. by rewrite elem_of_elements, MiddlewareModules_extension.
Qed.

(** The builder type, method by method. *)
Lemma Builder_lookup (O : Static.ObjectType) (N : gset symbol) f :
  O !! "$module" = Some (Static.TNames N) →
  Static.Builder O !! f =
  if decide (f = "coreFn" ∧ core ∈ N) then Some (Static.Spread O ADDED_FROM_CORE)
  else if decide (f = "extFn" ∧ extension ∈ N) then Some O
  else None.
Proof.
  intros HO. unfold Static.Builder. rewrite HO.
  destruct (decide (f = "coreFn" ∧ core ∈ N)) as [[-> Hcore] | Hncore].
  { apply (union_list_lookup_agree _ (Static.CoreModuleBuilder O)).
    - apply Builder_members. by left.
    - apply lookup_singleton_eq.
    - intros X' O' [[_ ->] | [_ ->]]%Builder_members.
      + unfold Static.CoreModuleBuilder. rewrite lookup_singleton_eq.
        by intros [= <-].
      + unfold Static.ExtensionModuleBuilder. by rewrite lookup_singleton_ne. }
  destruct (decide (f = "extFn" ∧ extension ∈ N)) as [[-> Hext] | Hnext].
  { apply (union_list_lookup_agree _ (Static.ExtensionModuleBuilder O)).
    - apply Builder_members. by right.
    - apply lookup_singleton_eq.
    - intros X' O' [[_ ->] | [_ ->]]%Builder_members.
      + unfold Static.CoreModuleBuilder. by rewrite lookup_singleton_ne.
      + unfold Static.ExtensionModuleBuilder. rewrite lookup_singleton_eq.
        by intros [= <-]. }
  apply lookup_union_list_None_2, Forall_forall.
  intros X [[Hcore ->] | [Hext ->]]%Builder_members.
  - apply lookup_singleton_None. intros <-. by apply Hncore.
  - apply lookup_singleton_None. intros <-. by apply Hnext.
Qed.

Lemma Builder_offers (O : Static.ObjectType) (N : gset symbol) f :
  O !! "$module" = Some (Static.TNames N) →
  f ∈ dom (Static.Builder O) ↔
  (f = "coreFn" ∧ core ∈ N) ∨ (f = "extFn" ∧ extension ∈ N).
Proof.
  intros HO. rewrite elem_of_dom, (Builder_lookup O N f HO).
  destruct (decide (f = "coreFn" ∧ core ∈ N)) as [Hc | Hc].
  { split; [by left | by eexists]. }
  destruct (decide (f = "extFn" ∧ extension ∈ N)) as [He | He].
  { split; [by right | by eexists]. }
  split; [by intros [? ?] | by intros [? | ?]].
Qed.

(** X4. For every list of modules and every type argument, the builder
    type that [createBuilder] returns has the method [coreFn] exactly when
    a module named [core] is in the list, the method [extFn] exactly when
    a module named [extension] is in the list, and no other method. *)
Theorem Builder_methods (modules : list Module) (TOptions : Static.ObjectType) f :
  f ∈ dom (Static.Builder (Static.createBuilder_options (Name modules) TOptions)) ↔
  (f = "coreFn" ∧ core ∈ name <$> modules) ∨
  (f = "extFn" ∧ extension ∈ name <$> modules).
Proof.
  rewrite (Builder_offers _ (Name modules))
    by apply createBuilder_options_module.
  unfold Name. by rewrite !elem_of_list_to_set.
Qed.

Lemma Spread_ADDED_FROM_CORE_module (O : Static.ObjectType) :
  Static.Spread O ADDED_FROM_CORE !! "$module" = O !! "$module".
Proof. unfold ADDED_FROM_CORE. by rewrite Spread_lookup, lookup_singleton_ne. Qed.

Lemma dom_Builder_names (O1 O2 : Static.ObjectType) (N : gset symbol) :
  O1 !! "$module" = Some (Static.TNames N) →
  O2 !! "$module" = Some (Static.TNames N) →
  dom (Static.Builder O1) = dom (Static.Builder O2).
Proof.
  intros H1 H2. apply set_eq. intros f.
  by rewrite (Builder_offers O1 N f H1), (Builder_offers O2 N f H2).
Qed.

(** One step of a chain: the method must be offered, and the builder it
    returns names the same modules. *)
Lemma check_calls_cons (O : Static.ObjectType) (N : gset symbol) f calls :
  O !! "$module" = Some (Static.TNames N) →
  (f ∈ dom (Static.Builder O) ∧
   (∃ TNext, Static.Builder O !! f = Some TNext ∧
             TNext !! "$module" = Some (Static.TNames N) ∧
             (TNext = Static.Spread O ADDED_FROM_CORE ∧ f = "coreFn" ∨
              TNext = O ∧ f = "extFn") ∧
             Static.check_calls O (f :: calls) = Static.check_calls TNext calls)) ∨
  ((f ∉ dom (Static.Builder O)) ∧ Static.check_calls O (f :: calls) = None).
Proof.
  intros HO. cbn [Static.check_calls].
  rewrite elem_of_dom, (Builder_lookup O N f HO).
  destruct (decide (f = "coreFn" ∧ core ∈ N)) as [[-> _] | _].
  { left. split; [by eexists|]. eexists. split; [done|].
    split; [by rewrite Spread_ADDED_FROM_CORE_module|]. split; [by left | done]. }
  destruct (decide (f = "extFn" ∧ extension ∈ N)) as [[-> _] | _].
  { left. split; [by eexists|]. eexists. split; [done|].
    split; [done|]. split; [by right | done]. }
  right. split; [by intros [? ?] | done].
Qed.

(** X5. A chain of calls [builder.f1().f2()...] type-checks exactly when
    each of its methods is offered by the builder at which the chain
    starts: a call neither adds a method nor takes one away, in whatever
    order the methods are called. *)
Theorem check_calls_offered (O : Static.ObjectType) (N : gset symbol) calls :
  O !! "$module" = Some (Static.TNames N) →
  is_Some (Static.check_calls O calls) ↔
  Forall (λ f, f ∈ dom (Static.Builder O)) calls.
Proof.
  revert O. induction calls as [|f calls IH]; intros O HO.
  - split; [by constructor | by eexists].
  - rewrite Forall_cons.
    destruct (check_calls_cons O N f calls HO)
      as [(Hf & TNext & _ & HNext & _ & ->) | [Hf ->]].
    + rewrite (IH TNext HNext), (dom_Builder_names TNext O N HNext HO).
      tauto.
    + split; [by intros [? ?] | by intros [? _]].
Qed.

(** X5, witness: the chain of line 206. *)
Lemma check_calls_offered_witness :
  is_Some (Static.check_calls
             (Static.createBuilder_options (Name [coreModule; extensionModule]) ∅)
             ["coreFn"; "extFn"; "coreFn"]) ↔
  Forall (λ f, f ∈ dom (Static.Builder
                          (Static.createBuilder_options
                             (Name [coreModule; extensionModule]) ∅)))
         ["coreFn"; "extFn"; "coreFn"].
Proof.
  apply (check_calls_offered _ (Name [coreModule; extensionModule])).
  vm_compute. reflexivity.
Defined.

(** X6. The options of the builder at the end of a chain that type-checks:
    those at its start, with the field of the core module spread over them
    if [coreFn] occurs in the chain.  [extFn] changes nothing, and a
    second [coreFn] changes nothing more. *)
Theorem check_calls_result (O : Static.ObjectType) (N : gset symbol) calls O' :
  O !! "$module" = Some (Static.TNames N) →
  Static.check_calls O calls = Some O' →
  O' = if decide ("coreFn" ∈ calls) then Static.Spread O ADDED_FROM_CORE else O.
Proof.
  revert O. induction calls as [|f calls IH]; intros O HO Hcheck.
  - cbn in Hcheck. injection Hcheck as <-.
    by rewrite decide_False by apply not_elem_of_nil.
  - destruct (check_calls_cons O N f calls HO)
      as [(_ & TNext & _ & HNext & Hstep & Heq) | [_ Heq]];
      rewrite Heq in Hcheck; [|done].
    specialize (IH TNext HNext Hcheck).
    destruct Hstep as [[-> ->] | [-> ->]].
    + rewrite (decide_True (P := "coreFn" ∈ "coreFn" :: calls))
        by apply list_elem_of_here.
      destruct (decide ("coreFn" ∈ calls)); [|done].
      rewrite IH. apply map_eq. intros k. rewrite !Spread_lookup.
      by destruct (ADDED_FROM_CORE !! k).
    + destruct (decide ("coreFn" ∈ calls)) as [Hin | Hnin].
      * by rewrite decide_True by by apply list_elem_of_further.
      * rewrite decide_False; [done|]. by intros [? | ?]%elem_of_cons.
Qed.

(** X6, witness: the chain of line 206 ends where [coreFn] alone ends. *)
Lemma check_calls_result_witness :
  Static.Spread
    (Static.Spread
       (Static.createBuilder_options (Name [coreModule; extensionModule]) ∅)
       ADDED_FROM_CORE)
    ADDED_FROM_CORE
  = Static.Spread
      (Static.createBuilder_options (Name [coreModule; extensionModule]) ∅)
      ADDED_FROM_CORE.
Proof.
  apply (check_calls_result
           (Static.createBuilder_options (Name [coreModule; extensionModule]) ∅)
           (Name [coreModule; extensionModule])
           ["coreFn"; "extFn"; "coreFn"]).
  - vm_compute. reflexivity.
  - vm_compute. reflexivity.
Defined.

(** X7. Adding modules to the list never breaks a chain of calls: a chain
    that type-checks on the builder for a list of modules type-checks on
    the builder for every longer list, with any type argument. *)
Theorem check_calls_more_modules (modules more : list Module)
    (TOptions TOptions' : Static.ObjectType) calls :
  is_Some (Static.check_calls
             (Static.createBuilder_options (Name modules) TOptions) calls) →
  is_Some (Static.check_calls
             (Static.createBuilder_options (Name (modules ++ more)) TOptions')
             calls).
Proof.
  assert (∀ cs (O1 O2 : Static.ObjectType) N1 N2,
            O1 !! "$module" = Some (Static.TNames N1) →
            O2 !! "$module" = Some (Static.TNames N2) →
            N1 ⊆ N2 →
            is_Some (Static.check_calls O1 cs) →
            is_Some (Static.check_calls O2 cs)) as Hmono.
  { clear. induction cs as [|f cs IH]; intros O1 O2 N1 N2 H1 H2 Hsub Hcheck;
      [by exists O2|].
    destruct (check_calls_cons O1 N1 f cs H1)
      as [(Hf1 & T1 & _ & HT1 & _ & Heq1) | [_ Heq1]];
      rewrite Heq1 in Hcheck; [|by destruct Hcheck].
    assert (f ∈ dom (Static.Builder O2)) as Hf2.
    { apply (Builder_offers O1 N1 f H1) in Hf1.
      apply (Builder_offers O2 N2 f H2).
      destruct Hf1 as [[? ?] | [? ?]]; [left | right]; split; auto. }
    destruct (check_calls_cons O2 N2 f cs H2)
      as [(_ & T2 & _ & HT2 & _ & ->) | [Hf2' _]]; [|done].
    by apply (IH T1 T2 N1 N2). }
  apply (Hmono calls _ _ (Name modules) (Name (modules ++ more)));
    try apply createBuilder_options_module.
  unfold Name. intros n. rewrite !elem_of_list_to_set, fmap_app, elem_of_app.
  by left.
Qed.

(** X7, witness: the core module alone, then core and extension. *)
Lemma check_calls_more_modules_witness :
  is_Some (Static.check_calls
             (Static.createBuilder_options
                (Name ([coreModule] ++ [extensionModule])) ∅)
             ["coreFn"; "coreFn"]).
Proof.
  apply (check_calls_more_modules [coreModule] [extensionModule] ∅ ∅).
  vm_compute. by eexists.
Defined.

(** ** What [buildApi] does to the heap *)



(** ** What [buildApi] does not read *)

Lemma init_phase_same_builderProps modules1 modules2 :
  Forall2 same_builderProps modules1 modules2 →
  ∀ σ1 σ2, heap σ1 = heap σ2 →
    match Array_map call_init modules1 σ1, Array_map call_init modules2 σ2 with
    | (Return rs1, σ1'), (Return rs2, σ2') =>
        builderProps <$> rs1 = builderProps <$> rs2 ∧ heap σ1' = heap σ2'
    | (Throw e1, σ1'), (Throw e2, σ2') => e1 = e2 ∧ heap σ1' = heap σ2'
    | _, _ => False
    end.
Proof.
  induction 1 as [|m1 m2 modules1 modules2 Hm _ IH]; intros σ1 σ2 Hheap; [done|].
  rewrite !Array_map_cons, !call_init_run, <- Hheap.
  specialize (Hm (heap σ1)).
  destruct (init m1 (heap σ1)) as [[r1|e1] h1], (init m2 (heap σ1)) as [[r2|e2] h2];
    try done; destruct Hm as [Hr <-]; cbn [fst snd].
  set (σ1' := {| heap := h1; init_calls := init_calls σ1 ++ [name m1] |}).
  set (σ2' := {| heap := h1; init_calls := init_calls σ2 ++ [name m2] |}).
  specialize (IH σ1' σ2' eq_refl).
  destruct (Array_map call_init modules1 σ1') as [[rs1|e1] σ1''],
           (Array_map call_init modules2 σ2') as [[rs2|e2] σ2'']; try done.
  destruct IH as [Hrs Hh]. split; [|done]. rewrite !fmap_cons. by f_equal.
Qed.

(** X9. [buildApi] reads neither the name of a module nor the
    [injectPipeProps] of its result: two lists of modules that differ in
    these only give, from the same heap, the same result (the same
    returned reference or the same error) and the same heap, with the
    same merged record in it. *)
Theorem buildApi_ignores_name_and_injectPipeProps
    (modules1 modules2 : list Module) σ :
  Forall2 same_builderProps modules1 modules2 →
  (buildApi modules1 σ).1 = (buildApi modules2 σ).1 ∧
  heap (buildApi modules1 σ).2 = heap (buildApi modules2 σ).2 ∧
  (merge_builderProps modules1 σ).1 = (merge_builderProps modules2 σ).1.
Proof.
  intros Hsame.
  pose proof (init_phase_same_builderProps _ _ Hsame σ σ eq_refl) as Hinit.
  destruct (Array_map call_init modules1 σ) as [[rs1|e1] σ1] eqn:H1,
           (Array_map call_init modules2 σ) as [[rs2|e2] σ2] eqn:H2; try done.
  - destruct Hinit as [Hrs Hheap].
    destruct (buildApi_Return _ _ _ _ H1) as (-> & -> & _).
    destruct (buildApi_Return _ _ _ _ H2) as (-> & -> & _).
    cbn [fst snd heap].
    assert (contribution (heap σ1) <$> rs1 = contribution (heap σ2) <$> rs2) as ->.
    { unfold contribution. rewrite <- Hheap.
      change (λ module, default ∅ (heap σ1 !! builderProps module))
        with ((λ l, default (∅ : object) (heap σ1 !! l)) ∘ builderProps).
      by rewrite !list_fmap_compose, Hrs. }
    by rewrite Hheap.
  - destruct Hinit as [-> Hheap].
    destruct (buildApi_Throw _ _ _ _ H1) as [-> ->].
    by destruct (buildApi_Throw _ _ _ _ H2) as [-> ->].
Qed.

(** X9, witness: a module named [core] and one named [extension] with
    another [injectPipeProps]. *)
Lemma buildApi_ignores_name_and_injectPipeProps_witness :
  (buildApi [literal_module_injecting core VUndefined
               {[ PString "coreFn" := coreFn_impl ]}] empty_state).1
  = (buildApi [literal_module_injecting extension (VNumber 7)
                 {[ PString "coreFn" := coreFn_impl ]}] empty_state).1.
Proof.
  apply (buildApi_ignores_name_and_injectPipeProps
           [literal_module_injecting core VUndefined
              {[ PString "coreFn" := coreFn_impl ]}]
           [literal_module_injecting extension (VNumber 7)
              {[ PString "coreFn" := coreFn_impl ]}]).
  constructor; [|constructor]. intros h. by cbn.
Defined.

(** ** The order of the modules *)





(** * The chat example: properties *)

(** ** The order of [toSorted] *)

Lemma string_compare_trans a : ∀ b c,
  String.compare a b ≠ Gt → String.compare b c ≠ Gt → String.compare a c ≠ Gt.
Proof.
  induction a as [|x a IH]; intros [|y b] [|z c]; cbn; try done.
  unfold Ascii.compare.
  destruct (N.compare_spec (Ascii.N_of_ascii x) (Ascii.N_of_ascii y)),
           (N.compare_spec (Ascii.N_of_ascii y) (Ascii.N_of_ascii z)),
           (N.compare_spec (Ascii.N_of_ascii x) (Ascii.N_of_ascii z));
    try done; try lia.
  apply IH.
Qed.

Lemma code_unit_le_alt a b : Channel.code_unit_le a b ↔ String.compare a b ≠ Gt.
Proof.
  unfold Channel.code_unit_le, String.leb.
  by destruct (String.compare a b).
Qed.

#[global] Instance code_unit_le_trans : Transitive Channel.code_unit_le.
Proof.
  intros a b c. rewrite !code_unit_le_alt. apply string_compare_trans.
Qed.

#[global] Instance code_unit_le_antisym : AntiSymm (=) Channel.code_unit_le.
Proof.
  intros a b Hab Hba. apply String.leb_antisym; by apply Is_true_true.
Qed.

#[global] Instance code_unit_le_total : Total Channel.code_unit_le.
Proof.
  intros a b. unfold Channel.code_unit_le.
  destruct (String.leb_total a b) as [-> | ->]; [by left | by right].
Qed.

(** Two lists of keys have the same sorted list exactly when they hold the
    same keys, each as often. *)
Lemma toSorted_Permutation (keys1 keys2 : list string) :
  Channel.toSorted keys1 = Channel.toSorted keys2 ↔ keys1 ≡ₚ keys2.
Proof.
  unfold Channel.toSorted. split.
  - intros Heq.
    rewrite <- (merge_sort_Permutation Channel.code_unit_le keys1), Heq.
    apply merge_sort_Permutation.
  - intros Hperm. apply (Sorted_unique Channel.code_unit_le).
    + apply Sorted_merge_sort, _.
    + apply Sorted_merge_sort, _.
    + by rewrite !merge_sort_Permutation.
Qed.

(** ** The index string of [maybeYield] *)

Lemma comma_split (a b r1 r2 : string) :
  Channel.has_comma a = false → Channel.has_comma b = false →
  (a ++ "," ++ r1)%string = (b ++ "," ++ r2)%string →
  a = b ∧ r1 = r2.
Proof.
  revert b. induction a as [|x a IH]; intros [|y b] Ha Hb Heq;
    cbn in Ha, Hb, Heq.
  - by simplify_eq.
  - by simplify_eq.
  - by simplify_eq.
  - injection Heq as -> Heq.
    apply orb_false_iff in Ha as [_ Ha]. apply orb_false_iff in Hb as [_ Hb].
    by destruct (IH b Ha Hb Heq) as [-> ->].
Qed.

Lemma comma_absent (a b r : string) :
  Channel.has_comma a = false → a ≠ (b ++ "," ++ r)%string.
Proof.
  revert a. induction b as [|y b IH]; intros a Ha ->; cbn in Ha; [done|].
  apply orb_false_iff in Ha as [_ Ha]. by apply (IH _ Ha).
Qed.

Lemma toString_cons2 x y keys :
  Channel.toString (x :: y :: keys)
  = (x ++ "," ++ Channel.toString (y :: keys))%string.
Proof. reflexivity. Qed.

(** For plain names the joined string determines the list. *)
Lemma toString_inj (keys1 keys2 : list string) :
  Forall Channel.plain_name keys1 → Forall Channel.plain_name keys2 →
  Channel.toString keys1 = Channel.toString keys2 → keys1 = keys2.
Proof.
  intros H1. revert keys2.
  induction H1 as [|x keys1 [Hx Hxc] H1 IH]; intros keys2 H2 Heq.
  - destruct H2 as [|y keys2 [Hy Hyc] H2]; [done|].
    destruct keys2 as [|y' keys2].
    + cbn in Heq. congruence.
    + rewrite toString_cons2 in Heq. cbn in Heq.
      destruct y; [done | discriminate].
  - destruct H2 as [|y keys2 [Hy Hyc] H2].
    { destruct keys1 as [|x' keys1].
      - cbn in Heq. congruence.
      - rewrite toString_cons2 in Heq. cbn in Heq.
        destruct x; [done | discriminate]. }
    destruct keys1 as [|x' keys1], keys2 as [|y' keys2].
    + cbn in Heq. by subst.
    + rewrite toString_cons2 in Heq. cbn [Channel.toString String.concat] in Heq.
      by apply comma_absent in Heq.
    + rewrite toString_cons2 in Heq. cbn [Channel.toString String.concat] in Heq.
      symmetry in Heq. by apply comma_absent in Heq.
    + rewrite !toString_cons2 in Heq.
      apply comma_split in Heq as [-> Heq]; [|done..].
      f_equal. by apply IH.
Qed.

(** ** The subscription *)

Lemma maybeYield_lastIsTyping keys lastIsTyping :
  (Channel.maybeYield keys lastIsTyping).2 = Channel.toString (Channel.toSorted keys).
Proof. unfold Channel.maybeYield. by case_decide. Qed.

Lemma whoIsTyping_snoc channelId initial events channelId' who :
  Channel.whoIsTyping channelId initial (events ++ [(channelId', who)])
  = if decide (channelId' = channelId)
    then ((Channel.whoIsTyping channelId initial events).1
            ++ (Channel.maybeYield who
                  (Channel.whoIsTyping channelId initial events).2).1,
          (Channel.maybeYield who
             (Channel.whoIsTyping channelId initial events).2).2)
    else Channel.whoIsTyping channelId initial events.
Proof.
  unfold Channel.whoIsTyping. rewrite foldl_snoc.
  destruct (foldl _ _ events) as [yielded lastIsTyping].
  cbn [fst snd]. case_decide; [|done].
  by destruct (Channel.maybeYield who lastIsTyping).
Qed.

Lemma latest_snoc channelId initial events channelId' who :
  Channel.latest channelId initial (events ++ [(channelId', who)])
  = if decide (channelId' = channelId) then who
    else Channel.latest channelId initial events.
Proof.
  unfold Channel.latest. rewrite filter_app, filter_cons, filter_nil. cbn [fst].
  case_decide.
  - rewrite fmap_app. cbn [fmap list_fmap snd]. by rewrite last_snoc.
  - by rewrite app_nil_r.
Qed.

(** [lastIsTyping] is the index string of what the generator has read
    last, whether it has yielded it or not. *)
Lemma whoIsTyping_lastIsTyping channelId initial events :
  (Channel.whoIsTyping channelId initial events).2
  = Channel.toString (Channel.toSorted (Channel.latest channelId initial events)).
Proof.
  induction events as [|[channelId' who] events IH] using rev_ind.
  - unfold Channel.whoIsTyping, Channel.latest. cbn [foldl].
    unfold Channel.maybeYield. by case_decide.
  - rewrite whoIsTyping_snoc, latest_snoc. case_decide; [|done].
    apply maybeYield_lastIsTyping.
Qed.

(** What the generator keeps true of what it has yielded: [lastIsTyping]
    is the index string of the last list yielded, two lists yielded one
    after the other have different index strings, and the first of all
    has not the empty one. *)
Lemma whoIsTyping_invariant channelId initial events :
  let idx keys := Channel.toString (Channel.toSorted keys) in
  let yielded := (Channel.whoIsTyping channelId initial events).1 in
  (Channel.whoIsTyping channelId initial events).2
    = default "" (idx <$> last yielded) ∧
  (∀ i y1 y2, yielded !! i = Some y1 → yielded !! S i = Some y2 →
              idx y1 ≠ idx y2) ∧
  (∀ y, yielded !! 0 = Some y → idx y ≠ "").
Proof.
  intros idx. induction events as [|[channelId' who] events IH] using rev_ind.
  - unfold Channel.whoIsTyping, Channel.maybeYield. cbn [foldl]. fold (idx initial).
    case_decide as Hidx; cbn.
    + split; [done|]. by split.
    + split; [done|]. split; [done|]. by intros y [= <-].
  - rewrite whoIsTyping_snoc. case_decide; [|exact IH].
    destruct (Channel.whoIsTyping channelId initial events) as [yielded lastIsTyping].
    cbn [fst snd] in *. destruct IH as (Hlast & Hadj & Hfirst).
    unfold Channel.maybeYield. fold (idx who). case_decide as Hidx; cbn [fst snd].
    { rewrite app_nil_r. by split. }
    split; [by rewrite last_snoc|]. split.
    + intros i y1 y2 H1 H2.
      destruct (decide (S i < length yielded)) as [Hlt | Hge].
      * rewrite lookup_app_l in H1 by lia. rewrite lookup_app_l in H2 by lia.
        by apply (Hadj i).
      * assert (S i = length yielded) as Hi.
        { apply lookup_lt_Some in H2. rewrite length_app in H2. cbn in H2. lia. }
        rewrite lookup_app_l in H1 by lia.
        rewrite lookup_app_r, Hi, Nat.sub_diag in H2 by lia. injection H2 as <-.
        rewrite last_lookup, <- Hi in Hlast. cbn [pred] in Hlast.
        rewrite H1 in Hlast. cbn in Hlast. congruence.
    + intros y Hy. destruct yielded as [|y0 yielded].
      * injection Hy as <-. cbn in Hlast. congruence.
      * apply Hfirst. by injection Hy as <-.
Qed.

(** X11. The subscription never yields the same set of typers twice in a
    row: two lists that it yields one after the other differ as sets of
    names, in whatever order their keys are listed. *)
Theorem whoIsTyping_no_repeat channelId initial events i (y1 y2 : list string) :
  (Channel.whoIsTyping channelId initial events).1 !! i = Some y1 →
  (Channel.whoIsTyping channelId initial events).1 !! S i = Some y2 →
  ¬ y1 ≡ₚ y2.
Proof.
  intros H1 H2 Hperm.
  destruct (whoIsTyping_invariant channelId initial events) as (_ & Hadj & _).
  apply (Hadj i y1 y2 H1 H2). f_equal. by apply toSorted_Permutation.
Qed.

(** X11, witness: the second event repeats the first in another order and
    is not yielded; the third is. *)
Lemma whoIsTyping_no_repeat_witness :
  ¬ ["bob"; "al"] ≡ₚ ["al"].
Proof.
  apply (whoIsTyping_no_repeat "c" []
           [("c", ["bob"; "al"]); ("c", ["al"; "bob"]); ("c", ["al"])] 0).
  - vm_compute. reflexivity.
  - vm_compute. reflexivity.
Defined.

(** X12. The subscription reports the changes of the set of typers, as
    far as the index string tells them.  An event for the channel with the
    same set of names as what the generator has read last (the initial
    state, or the previous event for the channel) yields nothing.  When
    the names are not empty and have no comma, an event with another set
    of names yields its list of keys.  An event for another channel yields
    nothing and leaves the generator as it is. *)
Theorem whoIsTyping_reports_changes channelId initial events (who : list string) :
  let before := Channel.whoIsTyping channelId initial events in
  let after := Channel.whoIsTyping channelId initial (events ++ [(channelId, who)]) in
  (who ≡ₚ Channel.latest channelId initial events → after.1 = before.1) ∧
  (Forall Channel.plain_name who →
   Forall Channel.plain_name (Channel.latest channelId initial events) →
   ¬ who ≡ₚ Channel.latest channelId initial events →
   after.1 = before.1 ++ [who]) ∧
  (∀ channelId', channelId' ≠ channelId →
     Channel.whoIsTyping channelId initial (events ++ [(channelId', who)])
     = before).
Proof.
  intros before after. unfold after, before.
  split; [|split].
  - rewrite whoIsTyping_snoc, decide_True by done. cbn [fst].
    rewrite whoIsTyping_lastIsTyping. unfold Channel.maybeYield.
    intros Hperm. apply toSorted_Permutation in Hperm.
    rewrite Hperm, decide_True by done. apply app_nil_r.
  - rewrite whoIsTyping_snoc, decide_True by done. cbn [fst].
    rewrite whoIsTyping_lastIsTyping. unfold Channel.maybeYield.
    intros Hwho Hlatest Hperm. rewrite decide_False; [done|].
    intros Heq. apply Hperm, toSorted_Permutation.
    apply toString_inj; [| |done]; unfold Channel.toSorted;
      by rewrite merge_sort_Permutation.
  - intros channelId' Hne. by rewrite whoIsTyping_snoc, decide_False.
Qed.

(** X12, witness: bob joins al. *)
Lemma whoIsTyping_reports_changes_witness :
  (Channel.whoIsTyping "c" ["al"] ([] ++ [("c", ["al"; "bob"])])).1
  = (Channel.whoIsTyping "c" ["al"] []).1 ++ [["al"; "bob"]].
Proof.
  apply (whoIsTyping_reports_changes "c" ["al"] [] ["al"; "bob"]).
  - repeat constructor; done.
  - repeat constructor; done.
  - intros Hperm. apply Permutation_length in Hperm. discriminate.
Defined.

(** Names with commas can hide a change: one user named [a,b] and the two
    users [a] and [b] have the same index string. *)
Lemma whoIsTyping_comma_hides_change :
  Channel.whoIsTyping "c" ["a,b"] [("c", ["a"; "b"])] = ([["a,b"]], "a,b").
Proof. by vm_compute. Qed.

(** X13. The subscription does not start by telling that nobody is
    typing: the first list it yields, if it yields any, is not empty.  An
    empty list is yielded only after a list with names. *)
Theorem whoIsTyping_first_yield channelId initial events (y : list string) :
  (Channel.whoIsTyping channelId initial events).1 !! 0 = Some y → y ≠ [].
Proof.
  intros Hy ->.
  destruct (whoIsTyping_invariant channelId initial events) as (_ & _ & Hfirst).
  by apply (Hfirst [] Hy).
Qed.

(** X13, witness: nobody types at first, then al does. *)
Lemma whoIsTyping_first_yield_witness : ["al"] ≠ @nil string.
Proof.
  apply (whoIsTyping_first_yield "c" [] [("c", []); ("d", ["x"]); ("c", ["al"])]).
  vm_compute. reflexivity.
Defined.

(** ** The timer *)

(** The inner loop on any list of entries. *)
Lemma sweep_entries now (channelId : string) (entries : list (string * Z)) :
  ∀ (typers : Channel.WhoIsTyping) (updatedChannels : gset string),
  let result :=
    foldl (λ '(typers, updatedChannels) '(key, lastTyped),
             if Channel.stale now lastTyped
             then (delete key typers, {[ channelId ]} ∪ updatedChannels)
             else (typers, updatedChannels))
          (typers, updatedChannels) entries in
  (∀ key, typers !! key = None → result.1 !! key = None) ∧
  (∀ key, (∀ t, (key, t) ∈ entries → Channel.stale now t = false) →
          result.1 !! key = typers !! key) ∧
  (∀ key t, (key, t) ∈ entries → Channel.stale now t = true →
            result.1 !! key = None) ∧
  (∀ c, c ∈ result.2 ↔
        c ∈ updatedChannels ∨
        (c = channelId ∧ ∃ key t, (key, t) ∈ entries ∧ Channel.stale now t = true)).
Proof.
  induction entries as [|[key0 t0] entries IH]; intros typers updatedChannels.
  - cbn. split; [done|]. split; [done|]. split.
    + by intros key t ?%elem_of_nil.
    + intros c. split; [by left|].
      by intros [? | (_ & ? & ? & ?%elem_of_nil & _)].
  - cbn [foldl]. destruct (Channel.stale now t0) eqn:Hstale.
    + destruct (IH (delete key0 typers) ({[ channelId ]} ∪ updatedChannels))
        as (Hnone & Hkeep & Hgone & Hset).
      split; [|split; [|split]].
      * intros key Hkey. apply Hnone.
        destruct (decide (key = key0)) as [-> | Hne];
          [apply lookup_delete_eq | by rewrite lookup_delete_ne].
      * intros key Hfresh.
        assert (key ≠ key0) as Hne.
        { intros ->. specialize (Hfresh t0 (list_elem_of_here _ _)). congruence. }
        rewrite Hkeep, lookup_delete_ne; [done..|].
        intros t Hin. apply Hfresh. by right.
      * intros key t [[= -> ->] | Hin]%elem_of_cons Ht.
        -- apply Hnone, lookup_delete_eq.
        -- by apply (Hgone key t).
      * intros c. rewrite Hset, elem_of_union, elem_of_singleton. split.
        -- intros [[-> | ?] | (-> & key & t & Hin & Ht)].
           ++ right. split; [done|]. exists key0, t0. split; [left | done].
           ++ by left.
           ++ right. split; [done|]. exists key, t. split; [by right | done].
        -- intros [? | (-> & key & t & Hin & Ht)]; [left; by right|].
           apply elem_of_cons in Hin as [[= -> ->] | Hin]; [left; by left|].
           right. split; [done|]. by exists key, t.
    + destruct (IH typers updatedChannels) as (Hnone & Hkeep & Hgone & Hset).
      split; [done|]. split; [|split].
      * intros key Hfresh. apply Hkeep. intros t Hin. apply Hfresh. by right.
      * intros key t [[= -> ->] | Hin]%elem_of_cons Ht; [congruence|].
        by apply (Hgone key t).
      * intros c. rewrite Hset. split.
        -- intros [? | (-> & key & t & Hin & Ht)]; [by left|].
           right. split; [done|]. exists key, t. split; [by right | done].
        -- intros [? | (-> & key & t & Hin & Ht)]; [by left|].
           apply elem_of_cons in Hin as [[= -> ->] | Hin]; [congruence|].
           right. split; [done|]. by exists key, t.
Qed.

(** The inner loop on a channel: a user stays exactly when the last
    keystroke is not stale, and the channel is marked as updated exactly
    when a user goes. *)
Lemma sweep_typers_spec now (channelId : string) (typers : Channel.WhoIsTyping)
    (updatedChannels : gset string) :
  (∀ key t, (Channel.sweep_typers now channelId typers updatedChannels).1 !! key
            = Some t ↔
            typers !! key = Some t ∧ Channel.stale now t = false) ∧
  (∀ c, c ∈ (Channel.sweep_typers now channelId typers updatedChannels).2 ↔
        c ∈ updatedChannels ∨
        (c = channelId ∧
         ∃ key t, typers !! key = Some t ∧ Channel.stale now t = true)).
Proof.
  unfold Channel.sweep_typers.
  destruct (sweep_entries now channelId (map_to_list typers) typers updatedChannels)
    as (Hnone & Hkeep & Hgone & Hset).
  split.
  - intros key t. destruct (typers !! key) as [t'|] eqn:Hkey.
    + destruct (Channel.stale now t') eqn:Hstale.
      * rewrite (Hgone key t') by by rewrite ?elem_of_map_to_list.
        split; [done | by intros [[= ->] ?]; congruence].
      * rewrite Hkeep, Hkey.
        -- split; [by intros [= ->] | by intros [? _]].
        -- intros t'' Hin%elem_of_map_to_list. congruence.
    + rewrite Hnone by done. split; [done | by intros [? _]].
  - intros c. rewrite Hset. by setoid_rewrite elem_of_map_to_list.
Qed.

(** The outer loop on any list of entries with distinct channels. *)
Lemma sweep_channels now (entries : list (string * Channel.WhoIsTyping)) :
  ∀ (currentlyTyping : gmap string Channel.WhoIsTyping)
    (updatedChannels : gset string),
  let result :=
    foldl (λ '(currentlyTyping, updatedChannels) '(channelId, typers),
             let '(typers, updatedChannels) :=
               Channel.sweep_typers now channelId typers updatedChannels in
             (<[channelId := typers]> currentlyTyping, updatedChannels))
          (currentlyTyping, updatedChannels) entries in
  (∀ c, c ∉ entries.*1 → result.1 !! c = currentlyTyping !! c) ∧
  (NoDup (entries.*1) →
   ∀ c typers, (c, typers) ∈ entries →
     ∃ typers', result.1 !! c = Some typers' ∧
       ∀ key t, typers' !! key = Some t ↔
                typers !! key = Some t ∧ Channel.stale now t = false) ∧
  (∀ c, c ∈ result.2 ↔
        c ∈ updatedChannels ∨
        ∃ typers key t, (c, typers) ∈ entries ∧ typers !! key = Some t ∧
                        Channel.stale now t = true).
Proof.
  induction entries as [|[c0 typers0] entries IH];
    intros currentlyTyping updatedChannels.
  - cbn. split; [done|]. split.
    + by intros _ c typers ?%elem_of_nil.
    + intros c. split; [by left|].
      by intros [? | (? & ? & ? & ?%elem_of_nil & _)].
  - cbn [foldl].
    destruct (sweep_typers_spec now c0 typers0 updatedChannels) as [Hkeys Hset0].
    destruct (Channel.sweep_typers now c0 typers0 updatedChannels)
      as [typers0' updated0] eqn:Hsweep. cbn [fst snd] in Hkeys, Hset0.
    destruct (IH (<[c0 := typers0']> currentlyTyping) updated0)
      as (Hother & Hthese & Hset).
    split; [|split].
    + intros c Hc. rewrite fmap_cons, not_elem_of_cons in Hc.
      destruct Hc as [Hne Hc]. cbn in Hne.
      by rewrite Hother, lookup_insert_ne.
    + rewrite fmap_cons, NoDup_cons. cbn [fst]. intros [Hc0 Hnodup] c typers Hin.
      apply elem_of_cons in Hin as [[= -> ->] | Hin].
      * exists typers0'. split; [|done].
        by rewrite Hother, lookup_insert_eq.
      * by apply Hthese.
    + intros c. rewrite Hset, Hset0. split.
      * intros [[? | (-> & key & t & Hkey & Ht)] | (typers & key & t & Hin & Hkey & Ht)].
        -- by left.
        -- right. exists typers0, key, t. split; [left | done].
        -- right. exists typers, key, t. split; [by right | done].
      * intros [? | (typers & key & t & Hin & Hkey & Ht)]; [left; by left|].
        apply elem_of_cons in Hin as [[= -> ->] | Hin].
        -- left. right. split; [done|]. by exists key, t.
        -- right. by exists typers, key, t.
Qed.

Lemma stale_false now t : Channel.stale now t = false ↔ (now - t ≤ 3000)%Z.
Proof.
  unfold Channel.stale. rewrite bool_decide_eq_false. lia.
Qed.

Lemma stale_true now t : Channel.stale now t = true ↔ (now - t > 3000)%Z.
Proof. unfold Channel.stale. by rewrite bool_decide_eq_true. Qed.

(** X14. What the timer does at time [now]: it forgets no channel; a user
    is listed as typing in a channel afterwards exactly when the user was
    listed before with a last keystroke at most 3000 ms old, and then with
    the same time; a channel is in [updatedChannels], and an event
    emitted for it, exactly when it has lost a user; and the event
    carries the users that remain. *)
Theorem sweep_spec now (currentlyTyping : gmap string Channel.WhoIsTyping) :
  dom (Channel.sweep now currentlyTyping).1 = dom currentlyTyping ∧
  (∀ c name t,
     (Channel.sweep now currentlyTyping).1 !! c ≫= (.!! name) = Some t ↔
     currentlyTyping !! c ≫= (.!! name) = Some t ∧ (now - t ≤ 3000)%Z) ∧
  (∀ c, c ∈ (Channel.sweep now currentlyTyping).2 ↔
        ∃ name t, currentlyTyping !! c ≫= (.!! name) = Some t ∧
                  (now - t > 3000)%Z) ∧
  (∀ c who, Channel.sweep_emits now currentlyTyping c = Some who ↔
            c ∈ (Channel.sweep now currentlyTyping).2 ∧
            (Channel.sweep now currentlyTyping).1 !! c = Some who).
Proof.
  destruct (sweep_channels now (map_to_list currentlyTyping) currentlyTyping ∅)
    as (Hother & Hthese & Hset).
  specialize (Hthese (NoDup_fst_map_to_list _)).
  fold (Channel.sweep now currentlyTyping) in Hother, Hthese, Hset.
  assert (∀ c, (Channel.sweep now currentlyTyping).1 !! c = None ↔
               currentlyTyping !! c = None) as Hnone.
  { intros c. destruct (currentlyTyping !! c) as [typers|] eqn:Hc.
    - apply elem_of_map_to_list in Hc.
      destruct (Hthese c typers Hc) as (typers' & -> & _). done.
    - rewrite Hother, Hc; [done|].
      intros ((c' & typers) & -> & Hin%elem_of_map_to_list)%list_elem_of_fmap.
      cbn in Hc. congruence. }
  assert (dom (Channel.sweep now currentlyTyping).1 = dom currentlyTyping) as Hdom.
  { apply set_eq. intros c. rewrite !elem_of_dom, <- !not_eq_None_Some.
    by rewrite Hnone. }
  split; [done|]. split; [|split].
  - intros c name t. destruct (currentlyTyping !! c) as [typers|] eqn:Hc.
    + apply elem_of_map_to_list in Hc.
      destruct (Hthese c typers Hc) as (typers' & -> & Hkeys). cbn.
      by rewrite Hkeys, stale_false.
    + apply Hnone in Hc. rewrite Hc. cbn. by split; [|intros [? _]].
  - intros c. rewrite Hset. split.
    + intros [?%elem_of_empty | (typers & key & t & Hin%elem_of_map_to_list & Hkey & Ht)];
        [done|].
      exists key, t. rewrite Hin. cbn. by rewrite <- stale_true.
    + intros (name & t & Hlook & Ht). right.
      destruct (currentlyTyping !! c) as [typers|] eqn:Hc; [|done].
      exists typers, name, t. by rewrite elem_of_map_to_list, stale_true.
  - intros c who. unfold Channel.sweep_emits. case_decide as Hin.
    + assert (is_Some ((Channel.sweep now currentlyTyping).1 !! c)) as [who' Hwho'].
      { apply elem_of_dom. rewrite Hdom. apply Hset in Hin
          as [?%elem_of_empty | (typers & _ & _ & Hc%elem_of_map_to_list & _)];
          [done|]. by apply elem_of_dom. }
      rewrite Hwho'. cbn. split; [by intros [= ->] | by intros [_ [= ->]]].
    + split; [done | by intros [? _]].
Qed.

Lemma nested_map_eq (m1 m2 : gmap string Channel.WhoIsTyping) :
  dom m1 = dom m2 →
  (∀ c name, m1 !! c ≫= (.!! name) = m2 !! c ≫= (.!! name)) →
  m1 = m2.
Proof.
  intros Hdom Hlook. apply map_eq. intros c.
  destruct (m1 !! c) as [w1|] eqn:H1, (m2 !! c) as [w2|] eqn:H2.
  - f_equal. apply map_eq. intros name. specialize (Hlook c name).
    by rewrite H1, H2 in Hlook.
  - apply elem_of_dom_2 in H1. apply not_elem_of_dom in H2. by rewrite Hdom in H1.
  - apply elem_of_dom_2 in H2. apply not_elem_of_dom in H1. by rewrite Hdom in H1.
  - done.
Qed.

(** X15. After the timer has run at time [now], running it again at that
    time or an earlier one changes nothing and marks no channel: what a
    sweep leaves is stable until time moves on. *)
Theorem sweep_again now now' (currentlyTyping : gmap string Channel.WhoIsTyping) :
  (now' ≤ now)%Z →
  Channel.sweep now' (Channel.sweep now currentlyTyping).1
  = ((Channel.sweep now currentlyTyping).1, ∅).
Proof.
  intros Hle.
  destruct (sweep_spec now currentlyTyping) as (Hdom & Hkeys & _ & _).
  destruct (sweep_spec now' (Channel.sweep now currentlyTyping).1)
    as (Hdom' & Hkeys' & Hset' & _).
  destruct (Channel.sweep now' (Channel.sweep now currentlyTyping).1)
    as [again updated]. cbn [fst snd] in *. f_equal.
  - apply nested_map_eq; [done|]. intros c name. apply option_eq. intros t.
    rewrite Hkeys'. split; [by intros [? _]|]. intros Ht. split; [done|].
    apply Hkeys in Ht as [_ Ht]. lia.
  - apply set_eq. intros c. rewrite Hset'. split; [|by intros ?%elem_of_empty].
    intros (name & t & [_ Ht]%Hkeys & Ht'). lia.
Qed.

(** X15, witness: bob is swept out at 10000, and a second sweep finds
    nothing to do. *)
Lemma sweep_again_witness :
  Channel.sweep 10000
    (Channel.sweep 10000
       {[ "c" := {[ "al" := 8000%Z; "bob" := 6000%Z ]} ]}).1
  = ((Channel.sweep 10000
        {[ "c" := {[ "al" := 8000%Z; "bob" := 6000%Z ]} ]}).1, ∅).
Proof. apply (sweep_again 10000 10000). lia. Defined.

(** ** The mutation [isTyping] *)

Lemma isTyping_lookup name channelId typing now
    (currentlyTyping : gmap string Channel.WhoIsTyping) c :
  (Channel.isTyping name channelId typing now currentlyTyping).1 !! c
  = if decide (c = channelId)
    then Some (Channel.isTyping_update name typing now
                 (default ∅ (currentlyTyping !! channelId)))
    else currentlyTyping !! c.
Proof.
  unfold Channel.isTyping, Channel.isTyping_update. cbn [fst].
  destruct (currentlyTyping !! channelId) as [typers|] eqn:Hc;
    destruct typing; cbn [negb default]; case_decide as Hcc; subst;
    rewrite ?lookup_alter_eq, ?lookup_alter_ne, ?lookup_insert_eq,
            ?lookup_insert_ne, ?Hc by done; done.
Qed.

Lemma isTyping_dom name channelId typing now
    (currentlyTyping : gmap string Channel.WhoIsTyping) :
  dom (Channel.isTyping name channelId typing now currentlyTyping).1
  = {[ channelId ]} ∪ dom currentlyTyping.
Proof.
  apply set_eq. intros c.
  rewrite elem_of_union, elem_of_singleton, !elem_of_dom, isTyping_lookup.
  case_decide; [|tauto]. split; [by left | by eexists].
Qed.


Lemma isTyping_update_commute name1 typing1 now1 name2 typing2 now2
    (typers : Channel.WhoIsTyping) :
  name1 ≠ name2 →
  Channel.isTyping_update name2 typing2 now2
    (Channel.isTyping_update name1 typing1 now1 typers)
  = Channel.isTyping_update name1 typing1 now1
      (Channel.isTyping_update name2 typing2 now2 typers).
Proof.
  intros Hne. unfold Channel.isTyping_update, Channel.set_property.
  destruct typing1, typing2; repeat case_decide; try done.
  - by apply insert_insert_ne.
  - by rewrite delete_insert_ne.
  - by rewrite delete_insert_ne.
  - apply delete_delete.
Qed.




(** X17. Calls of [isTyping] by different users, or for different
    channels, do not disturb one another: in either order they leave the
    same registry. *)
Theorem isTyping_calls_commute name1 channelId1 typing1 now1
    name2 channelId2 typing2 now2
    (currentlyTyping : gmap string Channel.WhoIsTyping) :
  (name1, channelId1) ≠ (name2, channelId2) →
  (Channel.isTyping name2 channelId2 typing2 now2
     (Channel.isTyping name1 channelId1 typing1 now1 currentlyTyping).1).1
  = (Channel.isTyping name1 channelId1 typing1 now1
       (Channel.isTyping name2 channelId2 typing2 now2 currentlyTyping).1).1.
Proof.
  intros Hne. apply map_eq. intros c. rewrite !isTyping_lookup.
  destruct (decide (channelId1 = channelId2)) as [<- | Hc].
  - destruct (decide (c = channelId1)) as [-> | Hc]; [|done].
    rewrite !decide_True by done. cbn [default from_option id].
    f_equal. apply isTyping_update_commute. congruence.
  - destruct (decide (c = channelId1)) as [Hc1 | Hc1].
    + subst c. rewrite !(decide_False (P := channelId1 = channelId2)) by done.
      by rewrite ?(decide_True (P := channelId1 = channelId1)) by done.
    + destruct (decide (c = channelId2)) as [Hc2 | Hc2]; [|done].
      subst c. rewrite !(decide_False (P := channelId2 = channelId1)) by done.
      by rewrite ?(decide_True (P := channelId2 = channelId2)) by done.
Qed.

(** X17, witness: al and bob in the same channel. *)
Lemma isTyping_calls_commute_witness :
  (Channel.isTyping "bob" "c" true 7 (Channel.isTyping "al" "c" true 5 ∅).1).1
  = (Channel.isTyping "al" "c" true 5 (Channel.isTyping "bob" "c" true 7 ∅).1).1.
Proof. apply isTyping_calls_commute. discriminate. Defined.

(** X18. A keystroke expires: after a user has called [isTyping] with
    [typing: true] at time [t], a run of the timer at time [now] leaves the
    user listed, with the time [t], exactly when [now - t] is at most
    3000 ms; when it is more, the user is gone and an event is emitted for
    the channel. *)
Theorem typing_expires name channelId t now
    (currentlyTyping : gmap string Channel.WhoIsTyping) :
  name ≠ "__proto__" →
  let typing := (Channel.isTyping name channelId true t currentlyTyping).1 in
  ((now - t ≤ 3000)%Z →
   (Channel.sweep now typing).1 !! channelId ≫= (.!! name) = Some t) ∧
  ((now - t > 3000)%Z →
   (Channel.sweep now typing).1 !! channelId ≫= (.!! name) = None ∧
   is_Some (Channel.sweep_emits now typing channelId)).
Proof.
  intros Hname typing.
  destruct (sweep_spec now typing) as (Hdom & Hkeys & Hset & Hemits).
  assert (typing !! channelId ≫= (.!! name) = Some t) as Hlisted.
  { unfold typing. rewrite isTyping_lookup, decide_True by done. cbn.
    unfold Channel.set_property. rewrite decide_False by done.
    apply lookup_insert_eq. }
  split.
  - intros Hfresh. by apply Hkeys.
  - intros Hstale. split.
    + apply eq_None_not_Some. intros [t' Ht']. apply Hkeys in Ht' as [Ht' Hle].
      rewrite Hlisted in Ht'. injection Ht' as <-. lia.
    + assert (channelId ∈ (Channel.sweep now typing).2) as Hin
        by (apply Hset; by exists name, t).
      assert (is_Some ((Channel.sweep now typing).1 !! channelId)) as [who Hwho].
      { apply elem_of_dom. rewrite Hdom. unfold typing.
        rewrite isTyping_dom. apply elem_of_union_l. by apply elem_of_singleton. }
      exists who. by apply Hemits.
Qed.

(** X18, witness: al typed at 5000; at 9000 the timer removes al. *)
Lemma typing_expires_witness :
  (Channel.sweep 9000 (Channel.isTyping "al" "c" true 5000 ∅).1).1 !! "c"
    ≫= (.!! "al") = None.
Proof.
  destruct (typing_expires "al" "c" 5000 9000 ∅) as [_ Hstale]; [discriminate|].
  destruct Hstale as [Hgone _]; [lia|]. exact Hgone.
Defined.

(** X19. The registry never forgets a channel: whatever calls of
    [isTyping] and runs of the timer follow, a channel that has an entry
    keeps one, and every channel named in a call of [isTyping] has one,
    also when its last user has stopped or has been swept out. *)
Theorem channels_are_kept (actions : list Channel.action)
    (currentlyTyping : gmap string Channel.WhoIsTyping) :
  dom currentlyTyping ⊆ dom (Channel.run actions currentlyTyping) ∧
  ∀ name channelId typing now,
    Channel.IsTyping name channelId typing now ∈ actions →
    channelId ∈ dom (Channel.run actions currentlyTyping).
Proof.
  revert currentlyTyping.
  induction actions as [|a actions IH]; intros currentlyTyping.
  - split; [done|]. by intros ???? ?%elem_of_nil.
  - destruct (IH (Channel.step currentlyTyping a)) as [Hkeep Hnamed].
    assert (dom currentlyTyping ⊆ dom (Channel.step currentlyTyping a)) as Hstep.
    { destruct a as [name channelId typing now | now]; cbn [Channel.step].
      - rewrite isTyping_dom. apply union_subseteq_r.
      - by destruct (sweep_spec now currentlyTyping) as [-> _]. }
    cbn [Channel.run foldl]. fold (Channel.run actions (Channel.step currentlyTyping a)).
    split; [by etrans|].
    intros name channelId typing now [Heq | Hin]%elem_of_cons.
    + subst a. apply Hkeep. cbn [Channel.step]. rewrite isTyping_dom.
      apply elem_of_union_l. by apply elem_of_singleton.
    + by apply (Hnamed name channelId typing now).
Qed.
